(** * Wordle solvers: a shallow embedding of [wordle.py] and [reverse_wordle.py]

    The two Python programs are embedded as Rocq functions over explicit
    state.  Python values are modelled as follows.

    - A [str] is the list of its Unicode code points; a one-character
      [str] (what iterating over a [str] yields) is a single code point.
    - A [set] is a [gset], a [dict] whose iteration order is irrelevant is
      a [gmap], and the word-frequency [dict], whose insertion order
      decides ties, is an association list.
    - A [float] is an exact rational ([Qc]): every float is a dyadic
      rational and comparisons are exact; only the rounding of [+] and
      [*] is idealised.
    - An exception is an explicit [Raise] result. *)

From Stdlib Require Import QArith Qcanon.
From stdpp Require Import gmap strings list numbers sorting.

Set Default Proof Using "Type".
Set Warnings "-clear-no-such-hyp".

(** ** Python values *)

Module Py.

Abbreviation char := N (only parsing).
Abbreviation str := (list N) (only parsing).

(** A literal of the source, as code points. *)
Definition lit (s : string) : str :=
  Ascii.N_of_ascii <$> String.list_ascii_of_string s.

(** A one-character literal. *)
Definition ord (s : string) : char := hd 0%N (lit s).

Inductive exn := KeyError | IndexError | ValueError | TypeError | EOFError.

Inductive result (A : Type) : Type :=
| Ok (a : A)
| Raise (e : exn).
Global Arguments Ok {A} a.
Global Arguments Raise {A} e.

Global Instance result_ret : MRet result := λ A a, Ok a.
Global Instance result_bind : MBind result := λ A B f m,
  match m with
  | Ok a => f a
  | Raise e => Raise e
  end.

Global Instance exn_eq_dec : EqDecision exn.
Proof. solve_decision. Defined.
Global Instance result_eq_dec `{EqDecision A} : EqDecision (result A).
Proof. solve_decision. Defined.

(** [str.lower]: the ASCII capitals are mapped to their small letters.
    Code points outside ASCII are left as they are, which is what
    Python does for every caseless character (the coloured squares of a
    shared result among them). *)
Definition lower_char (c : char) : char :=
  if ((65 <=? c) && (c <=? 90))%N then (c + 32)%N else c.
Definition lower (s : str) : str := lower_char <$> s.

(** [str.isspace] for one character: Python's table of whitespace. *)
Definition is_space (c : char) : bool :=
  (((9 <=? c) && (c <=? 13)) || ((28 <=? c) && (c <=? 32))
   || (c =? 133) || (c =? 160) || (c =? 5760)
   || ((8192 <=? c) && (c <=? 8202))
   || (c =? 8232) || (c =? 8233) || (c =? 8239) || (c =? 8287)
   || (c =? 12288))%N.

Fixpoint lstrip (s : str) : str :=
  match s with
  | c :: s' => if is_space c then lstrip s' else s
  | [] => []
  end.
Definition rstrip (s : str) : str := reverse (lstrip (reverse s)).
Definition strip (s : str) : str := rstrip (lstrip s).

(** [enumerate(l)] *)
Definition enumerate {A} (l : list A) : list (nat * A) :=
  zip (seq 0 (length l)) l.

End Py.
Import Py.

(** ** [reverse_wordle.py] *)

Module ReverseWordle.

(** The keys of [HINTS_MAP] are the four coloured squares of a shared
    result, each one character: black (U+2B1B), white (U+2B1C), yellow
    (U+1F7E8) and green (U+1F7E9).  (In a copy of the source that went
    through a Windows-1252 round trip each key reads as three or four
    accented characters; its bytes are those of the square.) *)
Definition BLACK : char := 0x2B1B%N.
Definition WHITE : char := 0x2B1C%N.
Definition YELLOW : char := 0x1F7E8%N.
Definition GREEN : char := 0x1F7E9%N.

Definition HINTS_MAP : gmap N (list N) :=
  {[ BLACK := lit "b"; WHITE := lit "b";
     YELLOW := lit "y"; GREEN := lit "g" ]}.

(** [HINTS_MAP[letter] or letter]: the subscript raises [KeyError] for a
    letter that is not a key; [or] falls back on an empty value. *)
Definition canonical_hint (letter : char) : result str :=
  match HINTS_MAP !! letter with
  | Some v => Ok (if bool_decide (v = []) then [letter] else v)
  | None => Raise KeyError
  end.

(** Returns [None] for the empty line and for the control words. *)
Definition canonical_hint_str (hint_str : str) : result (option str) :=
  let hint_str := strip (lower hint_str) in
  if bool_decide (hint_str ∈ [lit ""; lit "end"; lit "show"]) then Ok None
  else parts ← mapM canonical_hint hint_str; Ok (Some (concat parts)).

Definition hint (word : str) (letter : char) (index : nat) : result char :=
  if bool_decide (letter ∈ word) then
    match word !! index with
    | Some c => if bool_decide (c = letter) then Ok (ord "g") else Ok (ord "y")
    | None => Raise IndexError
    end
  else Ok (ord "b").

Definition get_hint_str (word guess : str) : result str :=
  mapM (λ '(idx, letter), hint word letter idx) (enumerate guess).

(** *** The query loop

    [shelve.open(..., writeback=True)] caches every entry it hands out,
    so [inv_index[k]] is the same [set] object at every access, and
    [candidates = matches] makes [candidates] an alias of that object.
    The objects are therefore kept in one store, addressed by their key,
    and [candidates] is [None] or the key of the object it refers to;
    the in-place [&=] updates the store. *)
Record session := Session {
  inv_index : gmap (list N) (gset (list N));
  candidates : option (list N);
  accumulate : list (list N * nat);
}.

Definition session_start (idx : gmap (list N) (gset (list N))) : session :=
  Session idx None [].

(** The set [candidates] refers to; [None] when it is Python's [None]. *)
Definition candidates_set (s : session) : option (gset (list N)) :=
  match candidates s with
  | Some k => Some (default ∅ (inv_index s !! k))
  | None => None
  end.

(** [len(candidates)] *)
Definition len_candidates (s : session) : nat :=
  size (default ∅ (candidates_set s)).

(** [not candidates]: true for [None] and for the empty set. *)
Definition not_candidates (s : session) : bool :=
  match candidates_set s with
  | Some c => bool_decide (c = ∅)
  | None => true
  end.

(** Lines 97-101: look the code up, then adopt its set ([not candidates])
    or intersect in place.  [not candidates] is tested where [candidates]
    is a set; for [None] it holds. *)
Definition narrow (s : session) (hint_str : str) : result session :=
  match inv_index s !! hint_str with
  | None => Raise KeyError
  | Some matches =>
    match candidates s with
    | Some k =>
      if not_candidates s then
        Ok (Session (inv_index s) (Some hint_str) (accumulate s))
      else
        let c := default ∅ (inv_index s !! k) in
        Ok (Session (<[k := c ∩ matches]> (inv_index s)) (Some k)
                    (accumulate s))
    | None => Ok (Session (inv_index s) (Some hint_str) (accumulate s))
    end
  end.

Inductive flow := Next (s : session) | Break (s : session).

(** One pass through the body of [while True], given the line [input]
    returned.  A status line [f'{hint_str} {len(candidates)}'] is kept as
    the pair it prints. *)
Definition reverse_wordle_body (s : session) (line : str) : result flow :=
  hint_str ← canonical_hint_str line;
  match hint_str with
  | None => Ok (Next s)
  | Some hint_str =>
    if bool_decide (hint_str = []) || bool_decide (hint_str = lit "ggggg")
    then Ok (Next s)
    else if bool_decide (hint_str = lit "end") then Ok (Break s)
    else
      s' ← narrow s hint_str;
      let status := (hint_str, len_candidates s') in
      Ok (Next (Session (inv_index s') (candidates s')
                        (accumulate s' ++ [status])))
  end.

(** How a run of the loop ends: by [break], after which the history is
    printed, or by an exception ([input] raises [EOFError] when the
    lines are used up). *)
Inductive ending :=
| Printed (history : list (list N * nat))
| Died (e : exn) (s : session).

Fixpoint reverse_wordle_loop (s : session) (lines : list (list N)) : ending :=
  match lines with
  | [] => Died EOFError s
  | line :: lines' =>
    match reverse_wordle_body s line with
    | Ok (Next s') => reverse_wordle_loop s' lines'
    | Ok (Break s') => Printed (accumulate s')
    | Raise e => Died e s
    end
  end.

Definition reverse_wordle (idx : gmap (list N) (gset (list N)))
    (lines : list (list N)) : ending :=
  reverse_wordle_loop (session_start idx) lines.

(** The sizes printed so far. *)
Definition reported_sizes (e : ending) : list nat :=
  match e with
  | Printed h => h.*2
  | Died _ s => (accumulate s).*2
  end.

(** The feedback of section 4.2 of the specification for the letter at
    [index] of the guess: correct when the hidden word has the same letter
    there, else present when the letter occurs in the hidden word, else
    absent. *)
Definition spec_hint (word : str) (letter : char) (index : nat) : char :=
  if bool_decide (word !! index = Some letter) then ord "g"
  else if bool_decide (letter ∈ word) then ord "y"
  else ord "b".

(** A canonical code: five symbols, each of [b], [y], [g]. *)
Definition canonical (code : str) : Prop :=
  length code = 5 ∧ Forall (λ c, c ∈ lit "byg") code.

(** A canonical code as the row of squares a player shares. *)
Definition squares (code : str) : str :=
  (λ c, if bool_decide (c = ord "b") then BLACK
        else if bool_decide (c = ord "y") then YELLOW
        else GREEN) <$> code.

(** The index of the reverse-path scenario of the specification. *)
Definition scenario_index : gmap (list N) (gset (list N)) :=
  {[ lit "bbbbb" := {[ lit "spelt" ]};
     lit "ygbbb" := {[ lit "apple"; lit "ample" ]} ]}.

End ReverseWordle.

(** ** [wordle.py] *)

Module Wordle.

Inductive MODE := EXPLORE | GUESS.

Global Instance MODE_eq_dec : EqDecision MODE.
Proof. solve_decision. Defined.

(** *** The patterns the solver builds

    Both patterns have the shape [^ a1 ... an $] where each [ai] matches
    one character: a letter of [exact_matches], [.], [[a-z]] or a
    negated class [[^...]].  The letters put into a pattern are letters
    of corpus words, [a] to [z] ([well_formed] below), so none of them is
    special in a pattern or makes a range inside a class. *)
Inductive atom :=
| Lit (c : char)
| Dot
| LowerCase
| NoneOf (cs : list N).

Definition atom_match (a : atom) (c : char) : bool :=
  match a with
  | Lit c' => bool_decide (c = c')
  | Dot => negb (bool_decide (c = 10%N))
  | LowerCase => ((97 <=? c) && (c <=? 122))%N
  | NoneOf cs => negb (bool_decide (c ∈ cs))
  end.

(** [re.compile('^...$').match(word)], as a truth value.  [$] matches at
    the end of the word and also just before a final newline. *)
Fixpoint re_match (atoms : list atom) (word : str) : bool :=
  match atoms, word with
  | [], [] => true
  | [], [c] => bool_decide (c = 10%N)
  | a :: atoms', c :: word' => atom_match a c && re_match atoms' word'
  | _, _ => false
  end.

(** [sorted(s)] for a set of letters *)
Definition sorted (s : gset N) : list N := merge_sort N.le (elements s).

(** [self.wordfreqs[word]] and [word in self.wordfreqs] on the insertion-ordered
    dictionary *)
Fixpoint dict_get {V} (d : list (list N * V)) (k : str) : option V :=
  match d with
  | [] => None
  | (k', v) :: d' => if bool_decide (k' = k) then Some v else dict_get d' k
  end.

Record wordle := Self {
  mode : MODE;
  exact_matches : list (option N);
  disallowed_letters : gset N;
  included_letters : gset N;
  guesses : nat;
  bad_guesses : gset (option (list N));
  wordfreqs : list (list N * Qc);
  letter_scores : gmap N Qc;
}.

(** [__init__], given what [get_wordfreqs] read from the files. *)
Definition init (corpus : list (list N * Qc)) : wordle := {|
  mode := EXPLORE;
  exact_matches := replicate 5 None;
  disallowed_letters := ∅;
  included_letters := ∅;
  guesses := 0;
  bad_guesses := ∅;
  wordfreqs := corpus;
  letter_scores := ∅;
|}.

(** [valid_regexp]: what [get_wordfreqs] lets through, [^[a-z]{5}$] on a
    stripped line. *)
Definition valid_word (word : str) : bool :=
  bool_decide (length word = 5)
  && forallb (λ c, ((97 <=? c) && (c <=? 122))%N) word.

Definition set_mode (m : MODE) (self : wordle) : wordle :=
  Self m (exact_matches self) (disallowed_letters self)
       (included_letters self) (guesses self) (bad_guesses self)
       (wordfreqs self) (letter_scores self).
Definition set_exact_matches (e : list (option N)) (self : wordle) : wordle :=
  Self (mode self) e (disallowed_letters self)
       (included_letters self) (guesses self) (bad_guesses self)
       (wordfreqs self) (letter_scores self).
Definition set_disallowed_letters (d : gset N) (self : wordle) : wordle :=
  Self (mode self) (exact_matches self) d
       (included_letters self) (guesses self) (bad_guesses self)
       (wordfreqs self) (letter_scores self).
Definition set_included_letters (i : gset N) (self : wordle) : wordle :=
  Self (mode self) (exact_matches self) (disallowed_letters self)
       i (guesses self) (bad_guesses self)
       (wordfreqs self) (letter_scores self).
Definition set_guesses (n : nat) (self : wordle) : wordle :=
  Self (mode self) (exact_matches self) (disallowed_letters self)
       (included_letters self) n (bad_guesses self)
       (wordfreqs self) (letter_scores self).
Definition set_bad_guesses (b : gset (option (list N))) (self : wordle) : wordle :=
  Self (mode self) (exact_matches self) (disallowed_letters self)
       (included_letters self) (guesses self) b
       (wordfreqs self) (letter_scores self).
Definition set_letter_scores (s : gmap N Qc) (self : wordle) : wordle :=
  Self (mode self) (exact_matches self) (disallowed_letters self)
       (included_letters self) (guesses self) (bad_guesses self)
       (wordfreqs self) s.

Definition regexp_guess (self : wordle) : list atom :=
  let allowed_letters := sorted (disallowed_letters self) in
  let allowed_regexp :=
    if bool_decide (allowed_letters = []) then LowerCase
    else NoneOf allowed_letters in
  (λ e, match e with Some e => Lit e | None => allowed_regexp end)
    <$> exact_matches self.

Definition regexp_explore (self : wordle) : list atom :=
  let skip_letters := sorted (
    disallowed_letters self ∪ included_letters self
    ∪ list_to_set (omap id (exact_matches self))) in
  if bool_decide (skip_letters = []) then replicate 5 Dot
  else replicate 5 (NoneOf skip_letters).

Definition regexp (self : wordle) : list atom :=
  match mode self with
  | EXPLORE => regexp_explore self
  | GUESS => regexp_guess self
  end.

Definition word_score_guess (self : wordle) (word : str) : result Qc :=
  match dict_get (wordfreqs self) word with
  | Some freq => Ok freq
  | None => Raise KeyError
  end.

(** [self.letter_scores[letter]] on the [defaultdict(float)] *)
Definition letter_score (scores : gmap N Qc) (letter : char) : Qc :=
  default 0%Qc (scores !! letter).

Definition word_score_explore (self : wordle) (word : str) : Qc :=
  foldr Qcplus 0%Qc
    (letter_score (letter_scores self) <$> elements (list_to_set word : gset N)).

Definition word_score (self : wordle) (word : str) : result Qc :=
  match mode self with
  | EXPLORE => Ok (word_score_explore self word)
  | GUESS => word_score_guess self word
  end.

Definition eligible (self : wordle) (word : str) : bool :=
  match mode self with
  | EXPLORE => true
  | GUESS => bool_decide (included_letters self ⊆ list_to_set word)
  end.

(** [letter in 'aeiou'] *)
Definition is_vowel (letter : char) : bool :=
  bool_decide (letter ∈ lit "aeiou").

Section Config.

(** The two module constants, [2] and [1] in the source. *)
Variable NUMBER_OF_EXPLORE_ROUNDS : nat.
Variable VOWEL_MULTIPLIER : Qc.

(** The inner loop of [compute_letter_scores]: [freq] is the loop
    variable of the outer loop and is rebound by [freq *= ...]. *)
Definition add_letter_scores (m : MODE) (word : str) (freq : Qc)
    (scores : gmap N Qc) : gmap N Qc :=
  (foldl (λ '(freq, scores) letter,
            let freq :=
              if bool_decide (m = EXPLORE) && is_vowel letter
              then (freq * VOWEL_MULTIPLIER)%Qc else freq in
            (freq, <[letter := (letter_score scores letter + freq)%Qc]> scores))
         (freq, scores) word).2.

Definition compute_letter_scores (regexp : list atom) (self : wordle) : wordle :=
  set_letter_scores
    (foldl (λ scores '(word, freq),
              if re_match regexp word
              then add_letter_scores (mode self) word freq scores
              else scores)
           ∅ (wordfreqs self))
    self.

Definition decide_mode (self : wordle) : wordle :=
  if bool_decide (NUMBER_OF_EXPLORE_ROUNDS ≤ guesses self)
  then set_mode GUESS self else self.

(** A [for] loop whose body updates [s] and may raise: what the body
    did before it raised stays done. *)
Fixpoint for_each {A S} (body : A → S → result unit * S) (l : list A)
    (s : S) : result unit * S :=
  match l with
  | [] => (Ok (), s)
  | a :: l' =>
    match body a s with
    | (Ok _, s') => for_each body l' s'
    | (Raise e, s') => (Raise e, s')
    end
  end.

(** The [match hint] of [add_hints], for one position of the guess. *)
Definition add_hint (pos : nat) (letter hint : char) (self : wordle)
    : result unit * wordle :=
  if bool_decide (hint = ord "b") then
    (Ok (), set_disallowed_letters (disallowed_letters self ∪ {[letter]}) self)
  else if bool_decide (hint = ord "y") then
    (Ok (), set_included_letters (included_letters self ∪ {[letter]}) self)
  else if bool_decide (hint = ord "g") then
    if bool_decide (pos < length (exact_matches self)) then
      (Ok (), set_exact_matches (<[pos := Some letter]> (exact_matches self)) self)
    else (Raise IndexError, self)
  else (Raise ValueError, self).

(** [guess] is [None] when [guess()] found no word; [zip] then raises
    [TypeError]. *)
Definition add_hints (guess : option (list N)) (hint_str : str)
    (self : wordle) : result unit * wordle :=
  match guess with
  | None => (Raise TypeError, self)
  | Some guess =>
    for_each (λ '(pos, (letter, hint)), add_hint pos letter hint)
             (enumerate (zip guess hint_str)) self
  end.

(** The test of the loop of [guess()]: not a bad guess, matched by the
    pattern, and eligible. *)
Definition shortlisted (self : wordle) (word : str) : bool :=
  negb (bool_decide (Some word ∈ bad_guesses self))
  && re_match (regexp self) word
  && eligible self word.

(** The body of the loop of [guess()], on the locals [best_word] and
    [matches]. *)
Definition guess_body (self : wordle) (regexp : list atom)
    (item : list N * Qc) (locals : (option (list N) * Qc) * nat)
    : result unit * ((option (list N) * Qc) * nat) :=
  let '(word, freq) := item in
  let '(best_word, matches) := locals in
  if bool_decide (Some word ∈ bad_guesses self) then (Ok (), locals)
  else if re_match regexp word then
    if negb (eligible self word) then (Ok (), locals)
    else
      let matches := matches + 1 in
      match word_score self word with
      | Raise e => (Raise e, (best_word, matches))
      | Ok score =>
        if bool_decide (best_word.2 < score)%Qc
        then (Ok (), ((Some word, score), matches))
        else (Ok (), (best_word, matches))
      end
  else (Ok (), locals).

Definition guess (self : wordle) : result (option (list N)) * wordle :=
  let best_word := (None, 0%Qc) in
  let regexp := regexp self in
  let self := compute_letter_scores regexp self in
  let matches := 0 in
  match for_each (guess_body self regexp) (wordfreqs self)
                 (best_word, matches) with
  | (Ok _, (best_word, _)) => (Ok best_word.1, self)
  | (Raise e, _) => (Raise e, self)
  end.

(** *** The loop of [play]

    A run owns the solver and the lines that [input] is still to
    return.  One pass through the body of [while True] is an event. *)
Record run := Run { solver : wordle; stdin : list (list N) }.

Inductive event :=
| Switched
| Rejected (guess : option (list N))
| Applied (guess : option (list N)) (hint_str : list N).

Definition play_body (r : run) : result event * run :=
  match guess (solver r) with
  | (Raise e, self) => (Raise e, Run self (stdin r))
  | (Ok guess, self) =>
    if bool_decide (guess = None) && bool_decide (mode self = EXPLORE) then
      (Ok Switched, Run (set_mode GUESS self) (stdin r))
    else
      match stdin r with
      | [] => (Raise EOFError, Run self [])
      | line :: rest =>
        let hint_str := strip line in
        if bool_decide (hint_str = lit "bad") then
          (Ok (Rejected guess),
           Run (set_bad_guesses (bad_guesses self ∪ {[guess]}) self) rest)
        else
          match add_hints guess hint_str self with
          | (Raise e, self) => (Raise e, Run self rest)
          | (Ok _, self) =>
            let self := set_guesses (guesses self + 1) self in
            let self := decide_mode self in
            (Ok (Applied guess hint_str), Run self rest)
          end
      end
  end.

(** The first [n] passes of the loop: the events, the exception that
    ended the loop (if one did within [n] passes) and the run as it
    was left. *)
Fixpoint play (n : nat) (r : run) : list event * option exn * run :=
  match n with
  | 0 => ([], None, r)
  | S n' =>
    match play_body r with
    | (Ok ev, r') => let '(evs, e, r'') := play n' r' in (ev :: evs, e, r'')
    | (Raise e, r') => ([], Some e, r')
    end
  end.

End Config.

(** The values the module gives the two constants. *)
Definition NUMBER_OF_EXPLORE_ROUNDS : nat := 2.
Definition VOWEL_MULTIPLIER : Qc := 1%Qc.

Definition is_applied (ev : event) : bool :=
  match ev with Applied _ _ => true | _ => false end.

(** The rounds that were applied, among the events of a run. *)
Definition applied_rounds (evs : list event) : nat :=
  length (filter is_applied evs).

(** What [guess()] leaves of the solver: only [letter_scores] is
    rewritten. *)
Definition same_knowledge (self self' : wordle) : Prop :=
  mode self' = mode self
  ∧ exact_matches self' = exact_matches self
  ∧ disallowed_letters self' = disallowed_letters self
  ∧ included_letters self' = included_letters self
  ∧ guesses self' = guesses self
  ∧ bad_guesses self' = bad_guesses self
  ∧ wordfreqs self' = wordfreqs self.

(** What holds of a solver that [play] runs on a corpus of valid words:
    [exact_matches] has its five slots, and the letters of the three
    constraint fields are letters of corpus words, [a] to [z]. *)
Definition lowercase (c : char) : Prop := (97 ≤ c ∧ c ≤ 122)%N.

Definition well_formed (self : wordle) : Prop :=
  length (exact_matches self) = 5
  ∧ (∀ c, c ∈ disallowed_letters self → lowercase c)
  ∧ (∀ c, c ∈ included_letters self → lowercase c)
  ∧ (∀ c, Some c ∈ exact_matches self → lowercase c)
  ∧ Forall (λ p, valid_word p.1 = true) (wordfreqs self).

(** The corpus of the scenario of the specification, and a larger one. *)
Definition scenario_corpus : list (list N * Qc) :=
  [(lit "apple", Qc_of_Z 5); (lit "angle", Qc_of_Z 4); (lit "ankle", Qc_of_Z 3)].

Definition larger_corpus : list (list N * Qc) :=
  scenario_corpus ++ [(lit "moist", Qc_of_Z 2); (lit "curvy", Qc_of_Z 1)].

(** A corpus with a word that the frequency file lists with count [1]:
    its log-frequency is [math.log(1)], that is [0.0]. *)
Definition rare_corpus : list (list N * Qc) := [(lit "apple", 0%Qc)].

(** *** The notions of the specification, and those the statements use *)

(** The invariant of the constraint state: no letter is both disallowed
    and required (included, or fixed as an exact match). *)
Definition conflict_free (self : wordle) : Prop :=
  ∀ c, c ∈ disallowed_letters self →
       (c ∉ included_letters self) ∧ (Some c ∉ exact_matches self).

(** The letters of [guess] that [hint_str] marks with [h]. *)
Definition hinted (h : char) (guess hint_str : str) : gset N :=
  list_to_set ((filter (λ p : N * N, p.2 = h) (zip guess hint_str)).*1).

(** Eligibility in GUESS mode (section 4.4). *)
Definition spec_eligible_guess (self : wordle) (word : str) : Prop :=
  (∀ i c, exact_matches self !! i = Some (Some c) → word !! i = Some c)
  ∧ (∀ i c, exact_matches self !! i = Some None → word !! i = Some c →
            c ∉ disallowed_letters self)
  ∧ (∀ c, c ∈ included_letters self → c ∈ word)
  ∧ Some word ∉ bad_guesses self.

(** [sum(l)] *)
Definition Qsum (l : list Qc) : Qc := foldr Qcplus 0%Qc l.

(** [word.count(letter)] *)
Definition occurrences (letter : char) (word : str) : nat :=
  length (filter (λ c, c = letter) word).

(** The aggregate value of a letter in EXPLORE mode (section 4.5): the
    frequencies of the eligible words that contain the letter, each
    counted once, weighted when the letter is a vowel. *)
Definition spec_letter_aggregate (vowel_multiplier : Qc) (self : wordle)
    (letter : char) : Qc :=
  let total :=
    Qsum ((filter (λ p : list N * Qc, shortlisted self p.1 ∧ letter ∈ p.1)
                  (wordfreqs self)).*2) in
  if is_vowel letter then (total * vowel_multiplier)%Qc else total.

(** What [compute_letter_scores] adds up for a letter: every word the
    pattern matches, once per occurrence of the letter. *)
Definition occurrence_total (regexp : list atom) (self : wordle)
    (letter : char) : Qc :=
  Qsum ((λ p : list N * Qc, (Qc_of_Z (Z.of_nat (occurrences letter p.1)) * p.2)%Qc)
          <$> filter (λ p : list N * Qc, re_match regexp p.1) (wordfreqs self)).

(** The score [guess()] compares, [0] where [word_score] raises. *)
Definition score_of (self : wordle) (word : str) : Qc :=
  match word_score self word with
  | Ok score => score
  | Raise _ => 0%Qc
  end.

(** What the locals of the loop of [guess()] hold after the words [l]: no
    word while no shortlisted word scored above [0], else the first of
    the shortlisted words with the highest score. *)
Definition best_so_far (self : wordle) (l : list (list N))
    (best : option (list N) * Qc) : Prop :=
  match best.1 with
  | Some w =>
    best.2 = score_of self w ∧ (0 < score_of self w)%Qc
    ∧ shortlisted self w = true
    ∧ ∃ l1 l2, l = l1 ++ w :: l2
        ∧ (∀ w', w' ∈ l1 → shortlisted self w' = true →
                 (score_of self w' < score_of self w)%Qc)
        ∧ (∀ w', w' ∈ l2 → shortlisted self w' = true →
                 (score_of self w' ≤ score_of self w)%Qc)
  | None =>
    best.2 = 0%Qc
    ∧ ∀ w', w' ∈ l → shortlisted self w' = true → (score_of self w' ≤ 0)%Qc
  end.

End Wordle.


(** ** [reverse_wordle.py]: building the index *)

Module InvertedIndex.
Import ReverseWordle.

(** The body of the inner loop of [create_inverted_indexes]: a code that
    is not a key yet gets an empty set, then the word is added in place
    to the set of the code. *)
Definition add_to_index (word guess : str)
    (inv_index : gmap (list N) (gset (list N)))
    : result unit * gmap (list N) (gset (list N)) :=
  match get_hint_str word guess with
  | Raise e => (Raise e, inv_index)
  | Ok hint_str =>
    let inv_index :=
      match inv_index !! hint_str with
      | None => <[hint_str := ∅]> inv_index
      | Some _ => inv_index
      end in
    (Ok (), alter (λ words, words ∪ {[word]}) hint_str inv_index)
  end.

(** [create_inverted_indexes], given what the shelf holds when it is
    opened and the words of the two files.  The two loops run over
    Python sets; their order is that of [elements]. *)
Definition create_inverted_indexes
    (inv_index : gmap (list N) (gset (list N)))
    (wordle_words wordle_dict : gset (list N))
    : result unit * gmap (list N) (gset (list N)) :=
  let all_words := wordle_dict ∪ wordle_words in
  Wordle.for_each
    (λ word, Wordle.for_each (add_to_index word) (elements all_words))
    (elements wordle_words) inv_index.

(** The answer words that some guess gives the code [code]. *)
Definition produced (wordle_words all_words : gset (list N)) (code : str)
    : gset (list N) :=
  filter (λ word, set_Exists (λ guess, get_hint_str word guess = Ok code) all_words)
         wordle_words.

(** An entry of the index after the words [new] were added to its code. *)
Definition merge_entry (entry : option (gset (list N))) (new : gset (list N))
    : option (gset (list N)) :=
  match entry with
  | Some words => Some (words ∪ new)
  | None => if bool_decide (new = ∅) then None else Some new
  end.

End InvertedIndex.

(** ** [reverse_wordle.py]: what the statements on the query loop use *)

Module QueryLoop.
Import ReverseWordle.

(** Sizes as the query loop prints them: from one line to the next the
    size does not grow, unless it was [0]. *)
Definition narrowing (sizes : list nat) : Prop :=
  ∀ i a b, sizes !! i = Some a → sizes !! S i = Some b → b ≤ a ∨ a = 0.

(** A line that the query loop gets past: one that is normalised to
    nothing, or to the all-green code, or to a code the index has. *)
Definition accepted (inv_index : gmap (list N) (gset (list N))) (line : str)
    : Prop :=
  match canonical_hint_str line with
  | Ok None => True
  | Ok (Some code) =>
    code = [] ∨ code = lit "ggggg" ∨ is_Some (inv_index !! code)
  | Raise _ => False
  end.

(** What the passes keep of the index [idx] the loop started from: its
    keys, and under each key a part of what was there; [candidates] is
    [None] or a key. *)
Definition within (idx : gmap (list N) (gset (list N))) (s : session) : Prop :=
  dom (inv_index s) = dom idx
  ∧ (∀ code, default ∅ (inv_index s !! code) ⊆ default ∅ (idx !! code))
  ∧ (∀ k, candidates s = Some k → is_Some (inv_index s !! k)).

(** What the passes keep of the history: the sizes narrow, and the last
    of them is the size of the set [candidates] refers to. *)
Definition narrowed (s : session) : Prop :=
  narrowing (accumulate s).*2
  ∧ ∀ a, last (accumulate s).*2 = Some a →
         a = len_candidates s ∧ is_Some (candidates s).

(** What the passes keep when every code is one the word [word] is
    under: it stays under each of them, [candidates] refers to one of
    them, and no size printed is [0]. *)
Definition kept (word : list N) (codes : list N → Prop) (s : session) : Prop :=
  (∀ code, codes code → ∃ ws, inv_index s !! code = Some ws ∧ word ∈ ws)
  ∧ (∀ k, candidates s = Some k → codes k)
  ∧ Forall (λ n, 1 ≤ n) (accumulate s).*2.

End QueryLoop.

(** ** [wordle.py]: reading the corpus *)

Module Corpus.
Import Wordle.

(** [str.split()]: the fields between runs of whitespace; [field] is the
    field being read, last character first. *)
Fixpoint split_from (field : str) (s : str) : list (list N) :=
  match s with
  | [] => if bool_decide (field = []) then [] else [reverse field]
  | c :: s' =>
    if is_space c then
      if bool_decide (field = []) then split_from [] s'
      else reverse field :: split_from [] s'
    else split_from (c :: field) s'
  end.
Definition split (s : str) : list (list N) := split_from [] s.

(** [d[k] = v] on the insertion-ordered dictionary: a key that is there
    keeps its place. *)
Fixpoint dict_set {V} (d : list (list N * V)) (k : str) (v : V)
    : list (list N * V) :=
  match d with
  | [] => [(k, v)]
  | (k', v') :: d' =>
    if bool_decide (k' = k) then (k', v) :: d' else (k', v') :: dict_set d' k v
  end.

Section Library.

(** [str.lower] on a line of the word file, [int(s)] for a string and
    [math.log(n)] for an integer are taken as they are; the last two
    return a value or raise.  The float that [math.log] returns is stood
    for by a rational. *)
Variable str_lower : list N → list N.
Variable int : list N → result Z.
Variable log : Z → result Qc.

(** The set comprehension over the lines of [VALID_WORDS_FILE]. *)
Definition valid_words (lines : list (list N)) : gset (list N) :=
  list_to_set
    (filter (λ word, re_match (replicate 5 LowerCase) word)
            ((λ line, str_lower (strip line)) <$> lines)).

(** The body of the loop over the lines of [WORDFREQ_FILE]. *)
Definition add_wordfreq (valid_words : gset (list N)) (line : str)
    (wordfreqs : list (list N * Qc)) : result unit * list (list N * Qc) :=
  if bool_decide (line = []) then (Ok (), wordfreqs)
  else
    match split line with
    | [word; freq] =>
      match int freq with
      | Raise e => (Raise e, wordfreqs)
      | Ok freq =>
        if bool_decide (word ∉ valid_words) then (Ok (), wordfreqs)
        else
          match log freq with
          | Raise e => (Raise e, wordfreqs)
          | Ok logfreq => (Ok (), dict_set wordfreqs word logfreq)
          end
      end
    | _ => (Raise ValueError, wordfreqs)
    end.

(** [get_wordfreqs], given the lines of the two files (each line with its
    newline, as iterating over a file yields them). *)
Definition get_wordfreqs (valid_lines freq_lines : list (list N))
    : result (list (list N * Qc)) :=
  match for_each (add_wordfreq (valid_words valid_lines)) freq_lines [] with
  | (Ok _, wordfreqs) => Ok wordfreqs
  | (Raise e, _) => Raise e
  end.

(** What the loop over the lines keeps of the dictionary: no word twice,
    and every entry read from a line of two fields. *)
Definition read_from (valid_lines freq_lines : list (list N))
    (wordfreqs : list (list N * Qc)) : Prop :=
  NoDup wordfreqs.*1
  ∧ Forall (λ p, p.1 ∈ valid_words valid_lines
                 ∧ valid_word p.1 = true
                 ∧ ∃ line freq n, line ∈ freq_lines
                     ∧ split line = [p.1; freq]
                     ∧ int freq = Ok n ∧ log n = Ok p.2) wordfreqs.

End Library.

(** [int(s)] where [s] is a run of the digits [0] to [9]; for every
    other string [ValueError], which [int] raises for most of them. *)
Definition decimal (s : str) : result Z :=
  if bool_decide (s = []) then Raise ValueError
  else
    foldl (λ acc c,
             n ← acc;
             if ((48 <=? c) && (c <=? 57))%N
             then Ok (10 * n + Z.of_N (c - 48))%Z
             else Raise ValueError)
          (Ok 0%Z) s.

(** A function with the domain of [math.log]: [ValueError] for an
    integer that is not positive.  Its values are those of the logarithm
    to base two, rounded down. *)
Definition log2_floor (n : Z) : result Qc :=
  if bool_decide (0 < n)%Z then Ok (Qc_of_Z (Z.log2 n)) else Raise ValueError.

End Corpus.

(** ** [wordle.py]: the notions the statements on scoring and
    eligibility use *)

Module Explore.
Import Wordle.

(** Eligibility in EXPLORE mode, as the docstring of the class has it: a
    word of letters none of which is disallowed, included or an exact
    match; and the word was not rejected. *)
Definition spec_eligible_explore (self : wordle) (word : str) : Prop :=
  (∀ c, c ∈ word →
        (c ∉ disallowed_letters self) ∧ (c ∉ included_letters self)
        ∧ (Some c ∉ exact_matches self))
  ∧ (Some word ∉ bad_guesses self).

(** The vowels among the first [n] letters of a word. *)
Definition vowels_upto (n : nat) (word : str) : nat :=
  length (filter (λ c, is_vowel c = true) (take n word)).

(** What one occurrence of a letter, at [pos] of a word of frequency
    [freq], adds to the score of the letter: in EXPLORE mode the
    frequency, multiplied once for each vowel of the word up to and
    including [pos]; in GUESS mode the frequency. *)
Definition occurrence_weight (vowel_multiplier : Qc) (m : MODE) (word : str)
    (freq : Qc) (pos : nat) : Qc :=
  match m with
  | EXPLORE => (freq * vowel_multiplier ^ vowels_upto (S pos) word)%Qc
  | GUESS => freq
  end.

(** The sum over the occurrences of [letter] in [word]. *)
Definition weighted_occurrences (vowel_multiplier : Qc) (m : MODE)
    (letter : char) (word : str) (freq : Qc) : Qc :=
  Qsum (imap (λ pos c, if bool_decide (c = letter)
                       then occurrence_weight vowel_multiplier m word freq pos
                       else 0%Qc) word).

(** The exceptions by which [play] ends on a well-formed solver. *)
Definition play_exn (e : exn) : Prop :=
  e = EOFError ∨ e = TypeError ∨ e = ValueError.

(** What a pass of [play] that does not raise uses up: a line, or the
    EXPLORE mode. *)
Definition passes_left (r : run) : nat :=
  length (stdin r) + match mode (solver r) with EXPLORE => 1 | GUESS => 0 end.

End Explore.

(** * Facts *)

(** ** [reverse_wordle.py] *)

Section ReverseWordleFacts.
Import ReverseWordle.

Lemma mapM_result_cons {A B} (f : A → result B) (a : A) (l : list A) :
  mapM f (a :: l) =
  match f a with
  | Ok b => match mapM f l with Ok bs => Ok (b :: bs) | Raise e => Raise e end
  | Raise e => Raise e
  end.
Proof. simpl. destruct (f a); simpl; [|done]. by destruct (mapM f l). Qed.

Lemma hint_in_range (word : list N) (letter : N) (index : nat) :
  index < length word → hint word letter index = Ok (spec_hint word letter index).
Proof.
  intros Hlt. unfold hint, spec_hint.
  destruct (lookup_lt_is_Some_2 word index Hlt) as [c Hc]. rewrite Hc.
  repeat case_bool_decide; simplify_eq; try done.
  exfalso. eauto using list_elem_of_lookup_2.
Qed.

Lemma hints_from (word guess : list N) (k : nat) :
  k + length guess ≤ length word →
  mapM (λ '(idx, letter), hint word letter idx) (zip (seq k (length guess)) guess)
  = Ok (imap (λ i letter, spec_hint word letter (k + i)) guess).
Proof.
  revert k. induction guess as [|g guess IH]; intros k Hk; [done|].
  simpl in Hk. cbn [length seq zip zip_with]. rewrite mapM_result_cons.
  rewrite hint_in_range by lia. rewrite IH by lia. simpl.
  rewrite Nat.add_0_r. do 2 f_equal. apply imap_ext. intros i x _. simpl.
  f_equal. lia.
Qed.

Lemma spec_hint_same (word : list N) (i : nat) (c : N) :
  word !! i = Some c → spec_hint word c i = ord "g".
Proof. intros H. unfold spec_hint. by rewrite bool_decide_true. Qed.

(** C6.  For a hidden word and a guess of the same length, [get_hint_str]
    returns, position by position, the feedback of the specification:
    correct where the guess has the letter of the hidden word, else present
    where the guessed letter occurs in the hidden word, else absent.  The
    feedback of a word against itself is all correct. *)
Theorem get_hint_str_feedback (word guess : list N) :
  length guess = length word →
  get_hint_str word guess = Ok (imap (λ i letter, spec_hint word letter i) guess)
  ∧ get_hint_str word word = Ok (replicate (length word) (ord "g")).
Proof.
  intros Hlen.
  assert (∀ g, length g = length word →
    get_hint_str word g = Ok (imap (λ i letter, spec_hint word letter i) g)) as Hgen.
  { intros g Hg. unfold get_hint_str, enumerate. rewrite hints_from by (simpl; lia).
    done. }
  split; [by apply Hgen|].
  rewrite Hgen by done. f_equal.
  apply list_eq. intros i. rewrite list_lookup_imap.
  destruct (word !! i) as [c|] eqn:Hc; simpl.
  - rewrite (spec_hint_same _ _ _ Hc). symmetry. apply lookup_replicate_2.
    eauto using lookup_lt_Some.
  - symmetry. apply lookup_replicate_None. apply lookup_ge_None in Hc. lia.
Qed.

Lemma get_hint_str_feedback_witness :
  get_hint_str (lit "tulip") (lit "apple")
  = Ok (imap (λ i letter, spec_hint (lit "tulip") letter i) (lit "apple"))
  ∧ get_hint_str (lit "tulip") (lit "tulip")
    = Ok (replicate (length (lit "tulip")) (ord "g")).
Proof. apply (get_hint_str_feedback (lit "tulip") (lit "apple")). reflexivity. Defined.

Lemma lstrip_head (s : list N) :
  (∀ c, head s = Some c → is_space c = false) → lstrip s = s.
Proof. destruct s as [|c s]; [done|]. intros H. simpl. by rewrite (H c). Qed.

Lemma canonical_symbol (c : N) :
  c ∈ lit "byg" →
  lower_char c = c ∧ is_space c = false ∧ HINTS_MAP !! c = None.
Proof.
  intros Hc. apply list_elem_of_In in Hc. simpl in Hc.
  destruct Hc as [<-|[<-|[<-|[]]]]; done.
Qed.

Lemma canonical_lower (code : list N) :
  Forall (λ c, c ∈ lit "byg") code → lower code = code.
Proof.
  induction 1 as [|c code Hc _ IH]; [done|].
  change (lower (c :: code)) with (lower_char c :: lower code).
  rewrite IH. by destruct (canonical_symbol c Hc) as [-> _].
Qed.

Lemma strip_no_space (s : list N) :
  Forall (λ c, is_space c = false) s → strip s = s.
Proof.
  intros Hall. unfold strip, rstrip.
  assert (∀ l : list N, Forall (λ c, is_space c = false) l → lstrip l = l) as Hl.
  { intros l Hf. apply lstrip_head. intros c Hc. by destruct Hf; simplify_eq/=. }
  rewrite (Hl s Hall). rewrite Hl; [apply reverse_involutive|].
  by apply Forall_reverse.
Qed.

Lemma canonical_strip (code : list N) :
  Forall (λ c, c ∈ lit "byg") code → strip code = code.
Proof.
  intros Hall. apply strip_no_space. eapply Forall_impl; [done|].
  intros c Hc. by apply canonical_symbol.
Qed.

(** C2.  Normalising a code that is already canonical does not return it:
    the subscript [HINTS_MAP[letter]] raises [KeyError] on its first
    symbol, so the fallback [or letter] is never reached. *)
Theorem canonical_hint_str_canonical (code : list N) :
  canonical code → canonical_hint_str code = Raise KeyError.
Proof.
  intros [Hlen Hall]. unfold canonical_hint_str.
  rewrite canonical_lower, canonical_strip by done.
  rewrite bool_decide_false.
  - destruct Hall as [|c code Hc _]; [done|]. rewrite mapM_result_cons.
    unfold canonical_hint. by destruct (canonical_symbol c Hc) as (_ & _ & ->).
  - intros Hin. apply list_elem_of_In in Hin. simpl in Hin.
    destruct Hin as [<-|[<-|[<-|[]]]]; done.
Qed.

Lemma canonical_hint_str_canonical_witness :
  canonical_hint_str (lit "bygbb") = Raise KeyError.
Proof.
  apply (canonical_hint_str_canonical (lit "bygbb")).
  split; [reflexivity|]. repeat constructor; by vm_compute; set_solver.
Defined.

Lemma square_symbol (c : N) :
  c ∈ lit "byg" →
  ∃ g, squares [c] = [g]
       ∧ lower_char g = g ∧ is_space g = false
       ∧ canonical_hint g = Ok [c]
       ∧ g ≠ ord "e" ∧ g ≠ ord "s".
Proof.
  intros Hc. apply list_elem_of_In in Hc. simpl in Hc.
  destruct Hc as [<-|[<-|[<-|[]]]]; eexists; (split; [reflexivity|]);
    repeat split; done.
Qed.

Lemma squares_cons (c : N) (code : list N) :
  squares (c :: code) = squares [c] ++ squares code.
Proof. done. Qed.

(** X3.  A row of squares is normalised to the code it shows. *)
Lemma canonical_hint_str_squares (code : list N) :
  code ≠ [] → Forall (λ c, c ∈ lit "byg") code →
  canonical_hint_str (squares code) = Ok (Some code).
Proof.
  intros Hne Hall. unfold canonical_hint_str.
  assert (lower (squares code) = squares code) as ->.
  { clear Hne. induction Hall as [|c code Hc _ IH]; [done|]. rewrite squares_cons.
    destruct (square_symbol c Hc) as (g & -> & Hg & _). unfold lower in *.
    rewrite fmap_app, IH. simpl. by rewrite Hg. }
  rewrite strip_no_space.
  2:{ clear Hne. induction Hall as [|c code Hc _ IH]; [constructor|].
      rewrite squares_cons.
      destruct (square_symbol c Hc) as (g & -> & _ & Hg & _).
      by constructor. }
  rewrite bool_decide_false.
  2:{ destruct Hall as [|c code Hc _]; [done|]. rewrite squares_cons.
      destruct (square_symbol c Hc) as (g & -> & _ & _ & _ & He & Hs).
      intros Hin. apply list_elem_of_In in Hin. simpl in Hin.
      destruct Hin as [Hin|[Hin|[Hin|[]]]]; [done|..];
        injection Hin as Hin _; by rewrite <-Hin in *. }
  assert (mapM canonical_hint (squares code) = Ok ((λ c, [c]) <$> code)) as ->.
  { clear Hne. induction Hall as [|c code Hc _ IH]; [done|]. rewrite squares_cons.
    destruct (square_symbol c Hc) as (g & -> & _ & _ & Hg & _).
    change ([g] ++ squares code) with (g :: squares code).
    by rewrite mapM_result_cons, Hg, IH. }
  simpl. do 2 f_equal. clear. induction code as [|c code IH]; [done|].
  rewrite fmap_cons, concat_cons. by rewrite IH.
Qed.

Lemma mapM_result_Ok {A B} (f : A → result B) (l : list A) (bs : list B) :
  mapM f l = Ok bs → Forall2 (λ a b, f a = Ok b) l bs.
Proof.
  revert bs. induction l as [|a l IH]; intros bs.
  - intros [= <-]. constructor.
  - rewrite mapM_result_cons. destruct (f a) as [b|] eqn:Hb; [|done].
    destruct (mapM f l) as [bs'|]; [|done]. intros [= <-].
    constructor; [done|]. by apply IH.
Qed.

Lemma canonical_hint_symbol (letter : N) (v : list N) :
  canonical_hint letter = Ok v → Forall (λ c, c ∈ lit "byg") v.
Proof.
  unfold canonical_hint. destruct (HINTS_MAP !! letter) as [w|] eqn:Hw; [|done].
  intros [= <-]. unfold HINTS_MAP in Hw.
  repeat (apply lookup_insert_Some in Hw as [[_ <-]|[_ Hw]];
          [repeat constructor; by vm_compute; set_solver|]).
  apply lookup_singleton_Some in Hw as [_ <-].
  repeat constructor; by vm_compute; set_solver.
Qed.

Lemma canonical_hint_str_symbols (line code : list N) :
  canonical_hint_str line = Ok (Some code) → Forall (λ c, c ∈ lit "byg") code.
Proof.
  unfold canonical_hint_str. case_bool_decide; [done|].
  destruct (mapM canonical_hint (strip (lower line))) as [parts|] eqn:Hparts;
    [|done].
  intros [= <-]. apply mapM_result_Ok in Hparts.
  apply Forall_concat. eapply Forall2_Forall_r; [exact Hparts|].
  apply Forall_true. intros a v. apply canonical_hint_symbol.
Qed.

Lemma canonical_hint_str_not_end (line : list N) :
  canonical_hint_str line ≠ Ok (Some (lit "end")).
Proof.
  intros H. apply canonical_hint_str_symbols in H.
  apply Forall_inv in H. apply list_elem_of_In in H. simpl in H.
  destruct H as [H|[H|[H|[]]]]; discriminate H.
Qed.

Lemma reverse_wordle_body_next (s : session) (line : list N) (f : flow) :
  reverse_wordle_body s line = Ok f → ∃ s', f = Next s'.
Proof.
  unfold reverse_wordle_body.
  pose proof (canonical_hint_str_not_end line) as Hend.
  destruct (canonical_hint_str line) as [[code|]|]; simpl; [| |done].
  - destruct (_ || _); [intros [= <-]; eauto|].
    case_bool_decide; [congruence|].
    destruct (narrow s code); simpl; [|done]. intros [= <-]; eauto.
  - intros [= <-]; eauto.
Qed.

(** C10.  [canonical_hint_str] never returns ['end']: the line ['end']
    gives [None], and a line that is normalised consists of [b], [y] and
    [g] only.  So the [break] of the loop of [reverse_wordle] is never
    taken, and the history after the loop is never printed: the loop ends
    by an exception. *)
Theorem end_never_breaks (s : session) (line : list N) (lines : list (list N)) :
  canonical_hint_str (lit "end") = Ok None
  ∧ (∀ code, canonical_hint_str line = Ok (Some code) →
             Forall (λ c, c ∈ lit "byg") code)
  ∧ canonical_hint_str line ≠ Ok (Some (lit "end"))
  ∧ (∀ s', reverse_wordle_body s line ≠ Ok (Break s'))
  ∧ (∃ e s', reverse_wordle_loop s lines = Died e s').
Proof.
  split; [done|]. split; [apply canonical_hint_str_symbols|].
  split; [apply canonical_hint_str_not_end|]. split.
  - intros s' H. by destruct (reverse_wordle_body_next _ _ _ H).
  - revert s. induction lines as [|l lines IH]; intros s; simpl; [eauto|].
    destruct (reverse_wordle_body s l) as [f|e] eqn:Hf; [|eauto].
    destruct (reverse_wordle_body_next _ _ _ Hf) as [s' ->]. apply IH.
Qed.

Lemma end_never_breaks_witness :
  canonical_hint_str (squares (lit "ygbbb")) = Ok (Some (lit "ygbbb"))
  ∧ Forall (λ c, c ∈ lit "byg") (lit "ygbbb")
  ∧ ∃ e s', reverse_wordle_loop (session_start scenario_index)
              [lit "end"; squares (lit "ygbbb")] = Died e s'.
Proof.
  assert (canonical_hint_str (squares (lit "ygbbb")) = Ok (Some (lit "ygbbb")))
    as Hrow by (vm_compute; reflexivity).
  split; [exact Hrow|]. split.
  - exact (proj1 (proj2 (end_never_breaks (session_start scenario_index)
                           (squares (lit "ygbbb")) [])) _ Hrow).
  - exact (proj2 (proj2 (proj2 (proj2
             (end_never_breaks (session_start scenario_index) []
                [lit "end"; squares (lit "ygbbb")]))))).
Defined.
(** While the running set is not empty, a step intersects and the size
    does not grow. *)
Lemma narrow_nonempty (s s' : session) (hint_str : list N) :
  narrow s hint_str = Ok s' → not_candidates s = false →
  len_candidates s' ≤ len_candidates s.
Proof.
  unfold narrow. destruct (inv_index s !! hint_str) as [matches|]; [|done].
  unfold not_candidates, len_candidates, candidates_set.
  destruct (candidates s) as [k|] eqn:Hk; [|done]. simpl.
  intros H Hne. rewrite Hne in H. injection H as Hs. subst s'. simpl.
  rewrite lookup_insert_eq. simpl. apply subseteq_size. set_solver.
Qed.

(** C1.  The sizes printed for the codes [ygbbb], [bbbbb], [bbbbb] over
    the index of the scenario of the specification: the second code
    empties the running set, and the third replaces the empty set by its
    own entry, of size 1. *)
Theorem emptied_candidates_are_replaced :
  reported_sizes
    (reverse_wordle scenario_index
       [squares (lit "ygbbb"); squares (lit "bbbbb"); squares (lit "bbbbb")])
  = [2; 0; 1]
  ∧ (s1 ← narrow (session_start scenario_index) (lit "ygbbb");
     s2 ← narrow s1 (lit "bbbbb");
     s3 ← narrow s2 (lit "bbbbb");
     Ok [len_candidates s1; len_candidates s2; len_candidates s3])
    = Ok [2; 0; 1].
Proof. split; by vm_compute. Qed.

(** The in-place intersection is seen through the index: the entry that
    [candidates] was taken from is the running set from then on. *)
Lemma index_entry_is_overwritten :
  match reverse_wordle scenario_index [squares (lit "ygbbb"); squares (lit "bbbbb")] with
  | Died _ s => inv_index s !! lit "ygbbb"
  | Printed _ => None
  end = Some ∅.
Proof. by vm_compute. Qed.

End ReverseWordleFacts.

(** ** [wordle.py]: the loops, [guess()] and [play] *)

Section WordleFacts.
Import Wordle.

Lemma for_each_invariant {A S} (P : S → Prop) (body : A → S → result unit * S)
    (l : list A) (s : S) :
  P s → (∀ a s, a ∈ l → P s → P (body a s).2) → P (for_each body l s).2.
Proof.
  revert s. induction l as [|a l IH]; intros s Hs Hbody; [done|]. simpl.
  pose proof (Hbody a s (list_elem_of_here _ _) Hs) as Hs'.
  destruct (body a s) as [[u|e] s']; [|done].
  apply IH; [done|]. intros b t Hb. apply Hbody. by right.
Qed.

Lemma for_each_skip {A S} (body : A → S → result unit * S) (l : list A) (s : S) :
  (∀ a, a ∈ l → body a s = (Ok (), s)) → for_each body l s = (Ok (), s).
Proof.
  induction l as [|a l IH]; intros Hbody; [done|]. simpl.
  rewrite Hbody by left. apply IH. intros b Hb. apply Hbody. by right.
Qed.

Lemma for_each_app {A S} (body : A → S → result unit * S) (l k : list A) (s : S) :
  for_each body (l ++ k) s =
  match for_each body l s with
  | (Ok _, s') => for_each body k s'
  | (Raise e, s') => (Raise e, s')
  end.
Proof.
  revert s. induction l as [|a l IH]; intros s; simpl; [done|].
  destruct (body a s) as [[u|e] s']; [apply IH|done].
Qed.

Lemma guess_solver (vm : Qc) (self : wordle) :
  (guess vm self).2 = compute_letter_scores vm (regexp self) self.
Proof.
  unfold guess. by destruct (for_each _ _ _) as [[u|e] [best matches]].
Qed.

Lemma guess_same_knowledge (vm : Qc) (self : wordle) :
  same_knowledge self (guess vm self).2.
Proof. rewrite guess_solver. by repeat split. Qed.

Lemma shortlisted_same_knowledge (self self' : wordle) (word : list N) :
  same_knowledge self self' → shortlisted self' word = shortlisted self word.
Proof.
  intros (Hm & He & Hd & Hi & _ & Hb & _).
  unfold shortlisted, eligible, regexp, regexp_guess, regexp_explore.
  by rewrite Hm, He, Hd, Hi, Hb.
Qed.

Lemma guess_body_shortlisted (self : wordle) (word : list N) (freq : Qc)
    (locals : (option (list N) * Qc) * nat) :
  guess_body self (regexp self) (word, freq) locals =
  if shortlisted self word then
    match word_score self word with
    | Ok score =>
      (Ok (), (if bool_decide (locals.1.2 < score)%Qc then (Some word, score)
               else locals.1, locals.2 + 1))
    | Raise e => (Raise e, (locals.1, locals.2 + 1))
    end
  else (Ok (), locals).
Proof.
  destruct locals as [best matches]. unfold guess_body, shortlisted.
  case_bool_decide; simpl; [done|].
  destruct (re_match _ _); simpl; [|done].
  destruct (eligible _ _); simpl; [|done].
  destruct (word_score _ _); [|done]. by case_bool_decide.
Qed.

(** The locals of the loop of [guess()] hold a shortlisted corpus word with
    a positive score, or no word at all. *)
Lemma guess_loop_shortlisted (self : wordle) (l : list (list N * Qc)) (w : list N) :
  (for_each (guess_body self (regexp self)) l ((None, 0%Qc), 0)).2.1.1 = Some w →
  shortlisted self w = true ∧ w ∈ l.*1.
Proof.
  revert w.
  apply (for_each_invariant
    (λ locals, ∀ w, locals.1.1 = Some w → shortlisted self w = true ∧ w ∈ l.*1));
    [done|].
  intros [word freq] locals Hin IH w. rewrite guess_body_shortlisted.
  destruct (shortlisted self word) eqn:Hs; [|apply IH].
  destruct (word_score self word); simpl; [|apply IH].
  case_bool_decide; simpl; [|apply IH]. intros [= <-]. split; [done|].
  apply list_elem_of_fmap. by exists (word, freq).
Qed.

Lemma guess_returns_shortlisted (vm : Qc) (self : wordle) (w : list N) :
  (guess vm self).1 = Ok (Some w) →
  shortlisted self w = true ∧ w ∈ (wordfreqs self).*1.
Proof.
  unfold guess. set (self' := compute_letter_scores vm (regexp self) self).
  assert (same_knowledge self self') as Hsame by by repeat split.
  assert (regexp self = regexp self') as ->.
  { destruct Hsame as (Hm & He & Hd & Hi & _).
    unfold regexp, regexp_guess, regexp_explore. by rewrite Hm, He, Hd, Hi. }
  pose proof (guess_loop_shortlisted self' (wordfreqs self') w) as H.
  destruct (for_each _ _ _) as [[u|e] [best matches]]; simpl in *; [|done].
  intros [= Hw]. destruct (H Hw) as [Hs Hin].
  by rewrite <-(shortlisted_same_knowledge self self').
Qed.

Lemma guess_none (vm : Qc) (self : wordle) :
  (∀ w, w ∈ (wordfreqs self).*1 → shortlisted self w = false) →
  guess vm self = (Ok None, compute_letter_scores vm (regexp self) self).
Proof.
  intros Hnone. unfold guess.
  set (self' := compute_letter_scores vm (regexp self) self).
  assert (same_knowledge self self') as Hsame by by repeat split.
  assert (regexp self = regexp self') as ->.
  { destruct Hsame as (Hm & He & Hd & Hi & _).
    unfold regexp, regexp_guess, regexp_explore. by rewrite Hm, He, Hd, Hi. }
  rewrite for_each_skip; [done|]. intros [word freq] Hin.
  rewrite guess_body_shortlisted, (shortlisted_same_knowledge self self') by done.
  rewrite Hnone; [done|]. apply list_elem_of_fmap. by exists (word, freq).
Qed.

(** [add_hints] touches the three constraint fields only, also when it
    raises half way. *)
Lemma add_hints_frame (guess : option (list N)) (hint_str : list N) (self : wordle) :
  let self' := (add_hints guess hint_str self).2 in
  mode self' = mode self ∧ guesses self' = guesses self
  ∧ bad_guesses self' = bad_guesses self ∧ wordfreqs self' = wordfreqs self
  ∧ length (exact_matches self') = length (exact_matches self).
Proof.
  destruct guess as [guess|]; [|done]. simpl.
  apply (for_each_invariant (λ s,
    mode s = mode self ∧ guesses s = guesses self
    ∧ bad_guesses s = bad_guesses self ∧ wordfreqs s = wordfreqs self
    ∧ length (exact_matches s) = length (exact_matches self))); [done|].
  intros [pos [letter hint]] s _ (Hm & Hg & Hb & Hw & Hl). unfold add_hint.
  repeat case_bool_decide; simpl; rewrite ?length_insert; done.
Qed.

(** One pass of the loop of [play]: rejected guesses are kept, GUESS mode
    is kept, and [guesses] counts the applied rounds, after each of which
    [decide_mode] has run. *)
Lemma play_body_pass (rounds : nat) (vm : Qc) (r : run) :
  let res := (play_body rounds vm r).1 in
  let r' := (play_body rounds vm r).2 in
  bad_guesses (solver r) ⊆ bad_guesses (solver r')
  ∧ (mode (solver r) = GUESS → mode (solver r') = GUESS)
  ∧ match res with
    | Ok (Applied _ _) =>
      guesses (solver r') = guesses (solver r) + 1
      ∧ (rounds ≤ guesses (solver r') → mode (solver r') = GUESS)
    | _ => guesses (solver r') = guesses (solver r)
    end.
Proof.
  unfold play_body.
  pose proof (guess_same_knowledge vm (solver r)) as (Hm & _ & _ & _ & Hg & Hb & _).
  destruct (guess vm (solver r)) as [[g|e] self]; simpl in *;
    [|by rewrite Hm, Hg, Hb].
  destruct (_ && _); simpl; [by rewrite Hg, Hb|].
  destruct (stdin r) as [|line rest]; simpl; [by rewrite Hm, Hg, Hb|].
  case_bool_decide; simpl.
  { rewrite Hm, Hg, Hb. split; [apply union_subseteq_l|done]. }
  pose proof (add_hints_frame g (strip line) self) as (Hm' & Hg' & Hb' & _).
  destruct (add_hints g (strip line) self) as [[u|e] self']; simpl in *.
  - unfold decide_mode. case_bool_decide; simpl in *.
    + rewrite Hg', Hg, Hb', Hb. repeat split; done.
    + rewrite Hm', Hm, Hg', Hg, Hb', Hb. repeat split; [done..|]. intros. lia.
  - by rewrite Hm', Hm, Hg', Hg, Hb', Hb.
Qed.

Lemma play_S (rounds : nat) (vm : Qc) (n : nat) (r : run) :
  play rounds vm (S n) r =
  match play_body rounds vm r with
  | (Ok ev, r') =>
    ((ev :: (play rounds vm n r').1.1, (play rounds vm n r').1.2),
     (play rounds vm n r').2)
  | (Raise e, r') => (([], Some e), r')
  end.
Proof.
  simpl. destruct (play_body rounds vm r) as [[ev|e] r']; [|done].
  by destruct (play rounds vm n r') as [[evs e] r''].
Qed.

Lemma play_passes (rounds : nat) (vm : Qc) (n : nat) (r : run) :
  let evs := (play rounds vm n r).1.1 in
  let r' := (play rounds vm n r).2 in
  bad_guesses (solver r) ⊆ bad_guesses (solver r')
  ∧ (mode (solver r) = GUESS → mode (solver r') = GUESS)
  ∧ guesses (solver r') = guesses (solver r) + applied_rounds evs
  ∧ (0 < applied_rounds evs → rounds ≤ guesses (solver r') →
     mode (solver r') = GUESS).
Proof.
  revert r. induction n as [|n IH]; intros r.
  { unfold applied_rounds. simpl. repeat split; [done..|lia|lia]. }
  rewrite play_S. pose proof (play_body_pass rounds vm r) as (Hb & Hm & Hg).
  destruct (play_body rounds vm r) as [[ev|e] r1]; simpl in *.
  - destruct (IH r1) as (Hb' & Hm' & Hg' & Hd'). simpl in *.
    split; [by etrans|]. split; [auto|].
    unfold applied_rounds in *. rewrite filter_cons.
    destruct ev as [|g|g h]; simpl in *.
    + split; [lia|done].
    + split; [lia|done].
    + destruct Hg as [Hg Hd]. simpl.
      split; [lia|]. intros _ Hle.
      destruct (decide (0 < length (filter is_applied (play rounds vm n r1).1.1)))
        as [Hpos|Hzero]; [auto|].
      apply Hm', Hd. lia.
  - unfold applied_rounds. simpl. repeat split; [done..|lia|lia].
Qed.

(** An applied round that leaves the budget unspent leaves the mode as it
    was. *)
Lemma play_body_waits (rounds : nat) (vm : Qc) (r r' : run)
    (g : option (list N)) (h : list N) :
  play_body rounds vm r = (Ok (Applied g h), r') →
  guesses (solver r) + 1 < rounds →
  mode (solver r') = mode (solver r).
Proof.
  unfold play_body.
  pose proof (guess_same_knowledge vm (solver r)) as (Hm & _ & _ & _ & Hg & _).
  destruct (guess vm (solver r)) as [[g'|e] self]; simpl in *; [|done].
  destruct (_ && _); simpl; [done|].
  destruct (stdin r) as [|line rest]; simpl; [done|].
  case_bool_decide; simpl; [done|].
  pose proof (add_hints_frame g' (strip line) self) as (Hm' & Hg' & _).
  destruct (add_hints g' (strip line) self) as [[u|e] self']; simpl in *; [|done].
  intros [= <- <- <-] Hlt. simpl. unfold decide_mode.
  rewrite bool_decide_false; [simpl; by rewrite Hm', Hm|].
  simpl. rewrite Hg', Hg. lia.
Qed.

(** C7.  A solver in GUESS mode stays in GUESS mode through every pass of
    the loop of [play]; with the budget of two rounds the mode is GUESS
    once two rounds have been applied, and the first applied round leaves
    the mode as it was; and a pass that finds no shortlisted word in
    EXPLORE mode switches to GUESS at once, reading no input. *)
Theorem mode_controller (vm : Qc) :
  (∀ rounds n r, mode (solver r) = GUESS →
                 mode (solver (play rounds vm n r).2) = GUESS)
  ∧ (∀ n corpus lines,
       applied_rounds
         (play NUMBER_OF_EXPLORE_ROUNDS vm n (Run (init corpus) lines)).1.1 = 2 →
       mode (solver
         (play NUMBER_OF_EXPLORE_ROUNDS vm n (Run (init corpus) lines)).2) = GUESS)
  ∧ (∀ r r' g h,
       play_body NUMBER_OF_EXPLORE_ROUNDS vm r = (Ok (Applied g h), r') →
       guesses (solver r) = 0 →
       mode (solver r') = mode (solver r))
  ∧ (∀ rounds self lines,
       mode self = EXPLORE →
       (∀ w, w ∈ (wordfreqs self).*1 → shortlisted self w = false) →
       ∃ self', play_body rounds vm (Run self lines) = (Ok Switched, Run self' lines)
                ∧ mode self' = GUESS).
Proof.
  split; [|split; [|split]].
  - intros rounds n r. apply play_passes.
  - intros n corpus lines Happlied. unfold NUMBER_OF_EXPLORE_ROUNDS in *.
    destruct (play_passes 2 vm n (Run (init corpus) lines)) as (_ & _ & Hg & Hd).
    simpl in *. rewrite Happlied in *. apply Hd; lia.
  - intros r r' g h Hpass Hzero. eapply play_body_waits; [exact Hpass|].
    rewrite Hzero. unfold NUMBER_OF_EXPLORE_ROUNDS. lia.
  - intros rounds self lines Hmode Hnone. unfold play_body. cbn [solver stdin].
    rewrite (guess_none vm self Hnone). simpl. rewrite Hmode. simpl. eauto.
Qed.

Lemma mode_controller_witness :
  mode (solver (play NUMBER_OF_EXPLORE_ROUNDS VOWEL_MULTIPLIER 2
                  (Run (init larger_corpus) [lit "bbbbb"; lit "bybbb"])).2) = GUESS
  ∧ mode (solver (play 2 VOWEL_MULTIPLIER 1
                    (play 2 VOWEL_MULTIPLIER 2
                       (Run (init scenario_corpus)
                            [lit "gbbgg"; lit "ggggg"])).2).2) = GUESS
  ∧ ∃ self',
      play_body 2 VOWEL_MULTIPLIER
        (Run (solver (play 2 VOWEL_MULTIPLIER 1
                        (Run (init scenario_corpus) [lit "gbbgg"])).2)
             [lit "ggggg"])
      = (Ok Switched, Run self' [lit "ggggg"])
      ∧ mode self' = GUESS.
Proof.
  split; [|split].
  - apply (proj1 (proj2 (mode_controller VOWEL_MULTIPLIER))).
    vm_compute. reflexivity.
  - apply (proj1 (mode_controller VOWEL_MULTIPLIER)). vm_compute. reflexivity.
  - apply (proj2 (proj2 (proj2 (mode_controller VOWEL_MULTIPLIER)))).
    + vm_compute. reflexivity.
    + intros w Hw.
      assert ((wordfreqs (solver (play 2 VOWEL_MULTIPLIER 1
                 (Run (init scenario_corpus) [lit "gbbgg"])).2)).*1
              = [lit "apple"; lit "angle"; lit "ankle"]) as Hkeys
        by (vm_compute; reflexivity).
      rewrite Hkeys in Hw. apply list_elem_of_In in Hw. simpl in Hw.
      destruct Hw as [<-|[<-|[<-|[]]]]; vm_compute; reflexivity.
Defined.

(** C9.  A pass of the loop of [play] that reads "bad" puts the guess into
    [bad_guesses] and leaves [guesses], [exact_matches],
    [disallowed_letters] and [included_letters] as they were; and a word
    in [bad_guesses] is not returned by [guess()] after any number of
    further passes. *)
Theorem bad_guess_is_not_repeated (rounds : nat) (vm : Qc) :
  (∀ self lines line g self1,
     guess vm self = (Ok g, self1) →
     ¬ (g = None ∧ mode self = EXPLORE) →
     strip line = lit "bad" →
     ∃ self', play_body rounds vm (Run self (line :: lines))
              = (Ok (Rejected g), Run self' lines)
       ∧ bad_guesses self' = bad_guesses self ∪ {[g]}
       ∧ guesses self' = guesses self
       ∧ exact_matches self' = exact_matches self
       ∧ disallowed_letters self' = disallowed_letters self
       ∧ included_letters self' = included_letters self)
  ∧ (∀ n r w, Some w ∈ bad_guesses (solver r) →
              (guess vm (solver (play rounds vm n r).2)).1 ≠ Ok (Some w)).
Proof.
  split.
  - intros self lines line g self1 Hguess Hprompt Hbad. unfold play_body.
    cbn [solver stdin].
    pose proof (guess_same_knowledge vm self) as (Hm & He & Hd & Hi & Hg & Hb & _).
    rewrite Hguess in *. simpl in *.
    destruct (bool_decide (g = None) && bool_decide (mode self1 = EXPLORE)) eqn:Hsw.
    { apply andb_true_iff in Hsw as [Hn He'].
      apply bool_decide_eq_true in Hn, He'. destruct Hprompt. split; congruence. }
    rewrite Hbad, bool_decide_true by done. eexists. split; [done|]. simpl.
    by rewrite Hb.
  - intros n r w Hin Hret. apply guess_returns_shortlisted in Hret as [Hs _].
    unfold shortlisted in Hs. apply andb_true_iff in Hs as [Hs _].
    apply andb_true_iff in Hs as [Hs _]. apply negb_true_iff in Hs.
    apply bool_decide_eq_false in Hs. apply Hs.
    by apply (play_passes rounds vm n r).
Qed.

Lemma bad_guess_is_not_repeated_witness :
  Some (lit "angle")
    ∈ bad_guesses (solver (play 2 1 1 (Run (init scenario_corpus)
                                           [lit " bad"; lit "bad"])).2)
  ∧ (guess 1 (solver (play 2 1 1
                        (play 2 1 1 (Run (init scenario_corpus)
                                         [lit " bad"; lit "bad"])).2).2)).1
    ≠ Ok (Some (lit "angle"))
  ∧ (play 2 1 2 (Run (init scenario_corpus) [lit " bad"; lit "bad"])).1.1
    = [Rejected (Some (lit "angle")); Rejected (Some (lit "apple"))].
Proof.
  assert (Some (lit "angle")
            ∈ bad_guesses (solver (play 2 1 1 (Run (init scenario_corpus)
                                                   [lit " bad"; lit "bad"])).2))
    as Hin.
  { apply (bool_decide_unpack _). vm_compute. exact I. }
  split; [exact Hin|]. split.
  - exact (proj2 (bad_guess_is_not_repeated 2 1) 1 _ _ Hin).
  - vm_compute. reflexivity.
Defined.

End WordleFacts.

(** ** [wordle.py]: what [guess()] returns *)

Section GuessFacts.
Import Wordle.

Lemma dict_get_is_Some {V} (d : list (list N * V)) (k : list N) :
  k ∈ d.*1 → is_Some (dict_get d k).
Proof.
  induction d as [|[k' v] d IH]; simpl; [by intros ?%elem_of_nil|].
  intros [->|Hin]%elem_of_cons; [by rewrite bool_decide_true|].
  case_bool_decide; eauto.
Qed.

(** [word_score] does not raise on a word of the corpus. *)
Lemma word_score_corpus (self : wordle) (word : list N) :
  word ∈ (wordfreqs self).*1 → word_score self word = Ok (score_of self word).
Proof.
  intros Hin. unfold score_of, word_score, word_score_guess.
  destruct (mode self); [done|].
  by destruct (dict_get_is_Some _ _ Hin) as [freq ->].
Qed.

Lemma guess_loop_best (self : wordle) (items : list (list N * Qc)) :
  items.*1 ⊆ (wordfreqs self).*1 →
  ∃ best matches,
    for_each (guess_body self (regexp self)) items ((None, 0%Qc), 0)
    = (Ok (), (best, matches))
    ∧ best_so_far self items.*1 best.
Proof.
  induction items as [|[word freq] items IH] using rev_ind; intros Hsub.
  { exists (None, 0%Qc), 0. split; [done|]. split; [done|].
    by intros w' ?%elem_of_nil. }
  rewrite fmap_app in Hsub. destruct IH as (best & matches & Hrun & Hbest).
  { intros w Hw. apply Hsub, elem_of_app. by left. }
  assert (word ∈ (wordfreqs self).*1) as Hword.
  { apply Hsub, elem_of_app. right. simpl. left. }
  rewrite for_each_app, Hrun. cbn [for_each]. rewrite guess_body_shortlisted.
  rewrite fmap_app. cbn [fmap list_fmap fst snd].
  destruct (shortlisted self word) eqn:Hs.
  - rewrite (word_score_corpus self word Hword). cbn [fst snd].
    case_bool_decide as Hlt; eexists _, _; (split; [done|]).
    + unfold best_so_far in *. cbn [fst snd].
      assert (0 ≤ best.2)%Qc as Hpos.
      { destruct best as [[w|] s]; simpl in *.
        - destruct Hbest as (-> & Hw & _). by apply Qclt_le_weak.
        - by destruct Hbest as [-> _]. }
      split; [done|]. split; [by eapply Qcle_lt_trans|]. split; [done|].
      exists items.*1, []. split; [done|]. split; [|by intros w' ?%elem_of_nil].
      intros w' Hw' Hs'. destruct best as [[w|] s]; simpl in *.
      * destruct Hbest as (-> & _ & _ & l1 & l2 & Hl & Hl1 & Hl2).
        rewrite Hl in Hw'. apply elem_of_app in Hw' as [Hw'|Hw'].
        { eapply Qclt_trans; [by apply Hl1|done]. }
        apply elem_of_cons in Hw' as [->|Hw']; [done|].
        eapply Qcle_lt_trans; [by apply Hl2|done].
      * destruct Hbest as (-> & Hall).
        eapply Qcle_lt_trans; [by apply Hall|done].
    + apply Qcnot_lt_le in Hlt. unfold best_so_far in *.
      destruct best as [[w|] s]; simpl in *.
      * destruct Hbest as (-> & Hw & Hsw & l1 & l2 & Hl & Hl1 & Hl2).
        repeat split; [done..|]. exists l1, (l2 ++ [word]).
        split; [by rewrite Hl, <-app_assoc|]. split; [done|].
        intros w' [Hw'|Hw']%elem_of_app Hs'; [by apply Hl2|].
        apply list_elem_of_singleton in Hw' as ->. done.
      * destruct Hbest as (-> & Hall). split; [done|].
        intros w' [Hw'|Hw']%elem_of_app Hs'; [by apply Hall|].
        apply list_elem_of_singleton in Hw' as ->. done.
  - exists best, matches. split; [done|]. unfold best_so_far in *.
    destruct best as [[w|] s]; simpl in *.
    + destruct Hbest as (-> & Hw & Hsw & l1 & l2 & Hl & Hl1 & Hl2).
      repeat split; [done..|]. exists l1, (l2 ++ [word]).
      split; [by rewrite Hl, <-app_assoc|]. split; [done|].
      intros w' [Hw'|Hw']%elem_of_app Hs'; [by apply Hl2|].
      apply list_elem_of_singleton in Hw' as ->. congruence.
    + destruct Hbest as (-> & Hall). split; [done|].
      intros w' [Hw'|Hw']%elem_of_app Hs'; [by apply Hall|].
      apply list_elem_of_singleton in Hw' as ->. congruence.
Qed.

(** [guess()] does not raise, and returns the first of the shortlisted
    corpus words with the highest score when that score is above [0], and
    [None] when no shortlisted corpus word scores above [0]. *)
Lemma guess_returns_best (vm : Qc) (self : wordle) :
  ∃ best,
    guess vm self = (Ok best.1, compute_letter_scores vm (regexp self) self)
    ∧ best_so_far (compute_letter_scores vm (regexp self) self)
                  (wordfreqs self).*1 best.
Proof.
  unfold guess. set (self' := compute_letter_scores vm (regexp self) self).
  assert (regexp self = regexp self') as -> by done.
  destruct (guess_loop_best self' (wordfreqs self')) as (best & matches & -> & Hbest);
    [done|].
  by exists best.
Qed.

End GuessFacts.

(** ** [wordle.py]: eligibility in GUESS mode *)

Section EligibilityFacts.
Import Wordle.

Lemma elem_of_sorted (c : N) (s : gset N) : c ∈ sorted s ↔ c ∈ s.
Proof. unfold sorted. by rewrite merge_sort_Permutation, elem_of_elements. Qed.

Lemma sorted_nil (s : gset N) : sorted s = [] → s = ∅.
Proof.
  intros Hnil. apply set_eq. intros c. rewrite <-elem_of_sorted, Hnil.
  set_solver.
Qed.

Lemma re_match_Forall2 (atoms : list atom) (word : list N) :
  10%N ∉ word →
  re_match atoms word = true ↔ Forall2 (λ a c, atom_match a c = true) atoms word.
Proof.
  revert word. induction atoms as [|a atoms IH]; intros word Hnl.
  - destruct word as [|c [|c' word]]; simpl.
    + split; [constructor|done].
    + rewrite bool_decide_eq_true. split; [|by inv 1].
      intros ->. destruct Hnl. left.
    + split; [done|by inv 1].
  - destruct word as [|c word]; simpl; [split; [done|by inv 1]|].
    rewrite andb_true_iff, IH, Forall2_cons; [done|].
    intros Hin. apply Hnl. by right.
Qed.

Lemma valid_word_letters (word : list N) :
  valid_word word = true →
  length word = 5 ∧ ∀ c, c ∈ word → (97 ≤ c ∧ c ≤ 122)%N.
Proof.
  unfold valid_word. rewrite andb_true_iff, bool_decide_eq_true, forallb_forall.
  intros [Hlen Hall]. split; [done|]. intros c Hc.
  apply list_elem_of_In, Hall, andb_true_iff in Hc as [H1 H2].
  by apply N.leb_le in H1, H2.
Qed.

Lemma init_well_formed (corpus : list (list N * Qc)) :
  Forall (λ p, valid_word p.1 = true) corpus → well_formed (init corpus).
Proof.
  intros Hcorpus. split; [done|]. split; [set_solver|]. split; [set_solver|].
  split; [|done]. intros c Hc. simpl in Hc. apply list_elem_of_In in Hc.
  simpl in Hc. naive_solver.
Qed.

Lemma add_hint_well_formed (pos : nat) (letter hint : N) (self : wordle) :
  lowercase letter → well_formed self →
  well_formed (add_hint pos letter hint self).2.
Proof.
  intros Hletter (Hlen & Hd & Hi & He & Hw). unfold add_hint.
  repeat case_bool_decide; simpl; try done.
  - split; [done|]. split; [|done]. simpl. intros c Hc.
    apply elem_of_union in Hc as [Hc|Hc]; [auto|].
    by apply elem_of_singleton in Hc as ->.
  - split; [done|]. split; [done|]. split; [|done]. simpl. intros c Hc.
    apply elem_of_union in Hc as [Hc|Hc]; [auto|].
    by apply elem_of_singleton in Hc as ->.
  - split; [simpl; by rewrite length_insert|]. split; [done|]. split; [done|].
    split; [|done]. simpl. intros c Hc.
    apply list_elem_of_lookup in Hc as [i Hc].
    destruct (decide (i = pos)) as [->|Hne].
    + rewrite list_lookup_insert_eq in Hc by done. by simplify_eq.
    + rewrite list_lookup_insert_ne in Hc by done.
      eauto using list_elem_of_lookup_2.
Qed.

Lemma add_hints_well_formed (guess hint_str : list N) (self : wordle) :
  valid_word guess = true → well_formed self →
  well_formed (add_hints (Some guess) hint_str self).2.
Proof.
  intros Hguess Hwf. simpl. apply for_each_invariant; [done|].
  intros [pos [letter hint]] s Hin Hs. apply add_hint_well_formed; [|done].
  unfold enumerate in Hin. apply elem_of_zip_r, elem_of_zip_l in Hin.
  by apply (valid_word_letters guess).
Qed.

(** A pass of the loop of [play] keeps the solver well formed: the letters
    it records are letters of a guess, and a guess is a corpus word. *)
Lemma play_body_well_formed (rounds : nat) (vm : Qc) (r : run) :
  well_formed (solver r) → well_formed (solver (play_body rounds vm r).2).
Proof.
  intros Hwf. unfold play_body.
  pose proof (guess_same_knowledge vm (solver r)) as Hsame.
  pose proof (guess_returns_shortlisted vm (solver r)) as Hword.
  destruct (guess vm (solver r)) as [[g|e] self]; simpl in *.
  2:{ destruct Hsame as (_ & He & Hd & Hi & _ & _ & Hw). unfold well_formed.
      by rewrite He, Hd, Hi, Hw. }
  assert (well_formed self) as Hself.
  { destruct Hsame as (_ & He & Hd & Hi & _ & _ & Hw). unfold well_formed.
    by rewrite He, Hd, Hi, Hw. }
  destruct (_ && _); simpl; [done|].
  destruct (stdin r) as [|line rest]; simpl; [done|].
  case_bool_decide; simpl; [done|].
  assert (well_formed (add_hints g (strip line) self).2) as Hafter.
  { destruct g as [w|]; [|done]. apply add_hints_well_formed; [|done].
    destruct (Hword w eq_refl) as [_ Hin]. destruct Hwf as (_ & _ & _ & _ & Hall).
    apply list_elem_of_fmap in Hin as [[w' freq] [-> Hin]].
    by apply (proj1 (Forall_forall _ _) Hall) in Hin. }
  destruct (add_hints g (strip line) self) as [[u|e] self']; simpl in *; [|done].
  unfold decide_mode. by case_bool_decide.
Qed.

Lemma play_well_formed (rounds : nat) (vm : Qc) (n : nat) (r : run) :
  well_formed (solver r) → well_formed (solver (play rounds vm n r).2).
Proof.
  revert r. induction n as [|n IH]; intros r Hwf; [done|]. rewrite play_S.
  pose proof (play_body_well_formed rounds vm r Hwf) as Hwf'.
  destruct (play_body rounds vm r) as [[ev|e] r1]; simpl in *; [|done].
  by apply IH.
Qed.

(** The atom [regexp_guess] puts at a position, against a letter of a valid
    word. *)
Lemma regexp_guess_atom (self : wordle) (e : option N) (c : N) :
  (97 ≤ c ∧ c ≤ 122)%N →
  atom_match
    (match e with
     | Some e => Lit e
     | None => if bool_decide (sorted (disallowed_letters self) = []) then LowerCase
               else NoneOf (sorted (disallowed_letters self))
     end) c = true
  ↔ match e with Some e => c = e | None => c ∉ disallowed_letters self end.
Proof.
  intros Hc. destruct e as [e|]; simpl; [by rewrite bool_decide_eq_true|].
  case_bool_decide as Hnil; simpl.
  - rewrite (sorted_nil _ Hnil). split; [set_solver|]. intros _.
    apply andb_true_iff. split; apply N.leb_le; lia.
  - by rewrite negb_true_iff, bool_decide_eq_false, elem_of_sorted.
Qed.

(** C8.  In GUESS mode a corpus word passes the three tests of the loop of
    [guess()] exactly when it is eligible as the specification says: the
    fixed letters are in place, no other position holds a disallowed
    letter, every included letter occurs in the word, and the word is not
    a rejected guess. *)
Theorem guess_mode_eligibility (self : wordle) (word : list N) :
  mode self = GUESS → well_formed self → valid_word word = true →
  shortlisted self word = true ↔ spec_eligible_guess self word.
Proof.
  intros Hmode [Hlen _] Hvalid. destruct (valid_word_letters word Hvalid) as [Hw Hletters].
  assert (10%N ∉ word) as Hnl by (intros H; apply Hletters in H; lia).
  unfold shortlisted, spec_eligible_guess, eligible, regexp. rewrite Hmode.
  rewrite !andb_true_iff, negb_true_iff, bool_decide_eq_false, bool_decide_eq_true.
  rewrite re_match_Forall2 by done. unfold regexp_guess.
  rewrite Forall2_fmap_l, Forall2_same_length_lookup.
  split.
  - intros [[Hbad [_ Hpos]] Hinc]. repeat split; [..|done].
    + intros i c He. destruct (lookup_lt_is_Some_2 word i) as [c' Hc']; [
        apply lookup_lt_Some in He; lia|].
      specialize (Hpos i _ _ He Hc').
      apply (regexp_guess_atom self (Some c)) in Hpos;
        [by subst|eauto using list_elem_of_lookup_2].
    + intros i c He Hc. specialize (Hpos i _ _ He Hc).
      apply (regexp_guess_atom self None) in Hpos;
        eauto using list_elem_of_lookup_2.
    + intros c Hc. apply Hinc in Hc. by apply elem_of_list_to_set in Hc.
  - intros (Hfix & Hfree & Hinc & Hbad). repeat split; [done|lia| |].
    + intros i e c He Hc. apply (regexp_guess_atom self e);
        [eauto using list_elem_of_lookup_2|].
      destruct e as [e|]; [|eauto]. specialize (Hfix i e He). congruence.
    + intros c Hc. apply elem_of_list_to_set. auto.
Qed.

Lemma guess_mode_eligibility_witness :
  (shortlisted (set_mode GUESS (set_disallowed_letters {[ord "x"]} (init [])))
               (lit "apple") = true
   ↔ spec_eligible_guess
       (set_mode GUESS (set_disallowed_letters {[ord "x"]} (init [])))
       (lit "apple"))
  ∧ shortlisted (set_mode GUESS (set_disallowed_letters {[ord "x"]} (init [])))
                (lit "apple") = true
  ∧ shortlisted (set_mode GUESS (set_disallowed_letters {[ord "x"]} (init [])))
                (lit "xebec") = false.
Proof.
  split; [|split; reflexivity].
  apply guess_mode_eligibility; [reflexivity| |reflexivity].
  split; [reflexivity|]. split; [|split; [set_solver|split; [|constructor]]].
  - intros c Hc. simpl in Hc. apply elem_of_singleton in Hc as ->.
    unfold lowercase, ord. simpl. lia.
  - intros c Hc. apply list_elem_of_In in Hc. simpl in Hc. naive_solver.
Defined.

End EligibilityFacts.

(** ** [wordle.py]: applying feedback *)

Section FeedbackFacts.
Import Wordle.

Lemma enumerate_snoc {A} (l : list A) (x : A) :
  enumerate (l ++ [x]) = enumerate l ++ [(length l, x)].
Proof.
  unfold enumerate. rewrite length_app. simpl. rewrite seq_app. simpl.
  rewrite zip_with_app by by rewrite length_seq. done.
Qed.

Lemma lookup_snoc_decide {A} (l : list A) (x : A) (pos : nat) :
  (l ++ [x]) !! pos = if decide (pos = length l) then Some x else l !! pos.
Proof.
  case_decide as Hpos.
  - subst. by rewrite lookup_app_r, Nat.sub_diag.
  - destruct (decide (pos < length l)); [by rewrite lookup_app_l|].
    rewrite (lookup_ge_None_2 l) by lia. apply lookup_ge_None_2.
    rewrite length_app. simpl. lia.
Qed.

Lemma hint_symbol (h : N) :
  h ∈ lit "byg" ↔ h = ord "b" ∨ h = ord "y" ∨ h = ord "g".
Proof.
  rewrite list_elem_of_In. simpl. unfold ord. simpl. intuition congruence.
Qed.

Lemma add_hints_loop (self : wordle) (pairs : list (N * N)) :
  length pairs ≤ length (exact_matches self) →
  Forall (λ p, p.2 ∈ lit "byg") pairs →
  ∃ self',
    for_each (λ '(pos, (letter, hint)), add_hint pos letter hint)
             (enumerate pairs) self = (Ok (), self')
    ∧ disallowed_letters self' = disallowed_letters self
        ∪ list_to_set ((filter (λ p : N * N, p.2 = ord "b") pairs).*1)
    ∧ included_letters self' = included_letters self
        ∪ list_to_set ((filter (λ p : N * N, p.2 = ord "y") pairs).*1)
    ∧ length (exact_matches self') = length (exact_matches self)
    ∧ ∀ pos, exact_matches self' !! pos =
        match pairs !! pos with
        | Some (letter, h) =>
          if bool_decide (h = ord "g") then Some (Some letter)
          else exact_matches self !! pos
        | None => exact_matches self !! pos
        end.
Proof.
  induction pairs as [|[letter h] pairs IH] using rev_ind; intros Hlen Hall.
  { exists self. simpl. repeat split; set_solver. }
  rewrite length_app in Hlen. simpl in Hlen.
  apply Forall_app in Hall as [Hall Hh]. apply Forall_inv in Hh. simpl in Hh.
  destruct IH as (self1 & Hrun & Hd & Hi & Hl & He); [lia|done|].
  rewrite enumerate_snoc, for_each_app, Hrun. simpl.
  rewrite !filter_app, !fmap_app, !list_to_set_app_L, !filter_cons, !filter_nil.
  unfold add_hint. apply hint_symbol in Hh as [-> | [-> | ->]]; simpl.
  - eexists. split; [done|]. simpl. rewrite Hd, Hi, Hl.
    split; [set_solver|]. split; [set_solver|]. split; [done|].
    intros pos. rewrite He, lookup_snoc_decide. case_decide; [subst|done].
    by rewrite lookup_ge_None_2.
  - eexists. split; [done|]. simpl. rewrite Hd, Hi, Hl.
    split; [set_solver|]. split; [set_solver|]. split; [done|].
    intros pos. rewrite He, lookup_snoc_decide. case_decide; [subst|done].
    by rewrite lookup_ge_None_2.
  - rewrite bool_decide_true by lia. eexists. split; [done|]. simpl.
    rewrite Hd, Hi, length_insert, Hl.
    split; [set_solver|]. split; [set_solver|]. split; [done|].
    intros pos. rewrite lookup_snoc_decide. case_decide; [subst|].
    + apply list_lookup_insert_eq. lia.
    + by rewrite list_lookup_insert_ne, He.
Qed.

Lemma add_hints_loop_invalid (self : wordle) (k : nat) (pairs : list (N * N)) :
  k + length pairs ≤ length (exact_matches self) →
  ¬ Forall (λ p, p.2 ∈ lit "byg") pairs →
  (for_each (λ '(pos, (letter, hint)), add_hint pos letter hint)
            (zip (seq k (length pairs)) pairs) self).1 = Raise ValueError.
Proof.
  revert k self. induction pairs as [|[letter h] pairs IH]; intros k self Hlen Hbad.
  { destruct Hbad. constructor. }
  simpl in Hlen. cbn [length seq zip zip_with for_each].
  destruct (decide (h ∈ lit "byg")) as [Hh|Hh].
  - assert (¬ Forall (λ p : N * N, p.2 ∈ lit "byg") pairs) as Hrest.
    { intros Hrest. apply Hbad. by constructor. }
    unfold add_hint.
    apply hint_symbol in Hh as [-> | [-> | ->]]; simpl.
    + apply IH; [simpl; lia|done].
    + apply IH; [simpl; lia|done].
    + rewrite bool_decide_true by lia. apply IH; [|done]. simpl.
      rewrite length_insert. lia.
  - unfold add_hint. rewrite hint_symbol in Hh.
    rewrite !bool_decide_false by tauto. done.
Qed.

(** C3, as amended.  [add_hints] checks no conflict.  A feedback code over
    [b], [y], [g] is applied as it stands: the letters marked [b] join
    [disallowed_letters], those marked [y] join [included_letters], those
    marked [g] are written into their slot of [exact_matches], whatever
    the three held before.  A code with another symbol raises
    [ValueError]. *)
Theorem add_hints_records_every_hint (self : wordle) (guess hint_str : list N) :
  length guess ≤ length (exact_matches self) →
  (Forall (λ p, p.2 ∈ lit "byg") (zip guess hint_str) →
   ∃ self',
     add_hints (Some guess) hint_str self = (Ok (), self')
     ∧ disallowed_letters self'
       = disallowed_letters self ∪ hinted (ord "b") guess hint_str
     ∧ included_letters self'
       = included_letters self ∪ hinted (ord "y") guess hint_str
     ∧ ∀ pos, exact_matches self' !! pos =
         match zip guess hint_str !! pos with
         | Some (letter, h) =>
           if bool_decide (h = ord "g") then Some (Some letter)
           else exact_matches self !! pos
         | None => exact_matches self !! pos
         end)
  ∧ (¬ Forall (λ p, p.2 ∈ lit "byg") (zip guess hint_str) →
     (add_hints (Some guess) hint_str self).1 = Raise ValueError).
Proof.
  intros Hlen.
  assert (length (zip guess hint_str) ≤ length (exact_matches self)) as Hzip.
  { rewrite length_zip_with. lia. }
  split.
  - intros Hall.
    destruct (add_hints_loop self _ Hzip Hall) as (self' & Hrun & Hd & Hi & _ & He).
    exists self'. done.
  - intros Hbad. by apply add_hints_loop_invalid.
Qed.

Lemma add_hints_records_every_hint_witness :
  ∃ self',
    add_hints (Some (lit "apple")) (lit "bybyb") (init scenario_corpus) = (Ok (), self')
    ∧ disallowed_letters self' = ∅ ∪ hinted (ord "b") (lit "apple") (lit "bybyb")
    ∧ included_letters self' = ∅ ∪ hinted (ord "y") (lit "apple") (lit "bybyb").
Proof.
  destruct (proj1 (add_hints_records_every_hint
                     (init scenario_corpus) (lit "apple") (lit "bybyb")
                     ltac:(vm_compute; lia)))
    as (self' & Hrun & Hd & Hi & _).
  { repeat constructor; by vm_compute; set_solver. }
  exists self'. done.
Defined.

(** The feedback [bybyb] for "apple" (the answer has one [p], elsewhere)
    is accepted and leaves [p] both disallowed and included. *)
Lemma add_hints_accepts_conflict :
  conflict_free (init scenario_corpus)
  ∧ ∃ self',
      add_hints (Some (lit "apple")) (lit "bybyb") (init scenario_corpus)
      = (Ok (), self')
      ∧ ord "p" ∈ disallowed_letters self'
      ∧ ord "p" ∈ included_letters self'
      ∧ ¬ conflict_free self'.
Proof.
  split; [intros c Hc; set_solver|].
  eexists. split; [vm_compute; reflexivity|].
  split; [|split].
  - apply (bool_decide_unpack _). vm_compute. exact I.
  - apply (bool_decide_unpack _). vm_compute. exact I.
  - intros Hfree. destruct (Hfree (ord "p")) as [Hnot _].
    + apply (bool_decide_unpack _). vm_compute. exact I.
    + apply Hnot. apply (bool_decide_unpack _). vm_compute. exact I.
Qed.

End FeedbackFacts.

(** ** [wordle.py]: scores *)

Section ScoringFacts.
Import Wordle.

Lemma letter_score_insert (scores : gmap N Qc) (k letter : N) (v : Qc) :
  letter_score (<[k := v]> scores) letter
  = if decide (k = letter) then v else letter_score scores letter.
Proof.
  unfold letter_score. case_decide.
  - subst. by rewrite lookup_insert_eq.
  - by rewrite lookup_insert_ne.
Qed.

Lemma occurrences_cons (letter c : N) (word : list N) :
  occurrences letter (c :: word)
  = (if decide (c = letter) then 1 else 0) + occurrences letter word.
Proof. unfold occurrences. rewrite filter_cons. by case_decide. Qed.

(** With the neutral multiplier the inner loop leaves [freq] as it is and
    adds it once per occurrence. *)
Lemma add_letter_scores_neutral (m : MODE) (word : list N) (freq : Qc)
    (scores : gmap N Qc) (letter : N) :
  letter_score (add_letter_scores 1 m word freq scores) letter
  = (letter_score scores letter
     + Qc_of_Z (Z.of_nat (occurrences letter word)) * freq)%Qc.
Proof.
  unfold add_letter_scores. revert scores.
  induction word as [|c word IH]; intros scores.
  { cbn [foldl snd].
    change (Qc_of_Z (Z.of_nat (occurrences letter []))) with (Qc_of_Z 0).
    rewrite Z2Qc_inj_0. ring. }
  cbn [foldl]. rewrite Qcmult_1_r.
  replace (if bool_decide (m = EXPLORE) && is_vowel c then freq else freq)
    with freq by by destruct (_ && _).
  rewrite IH, letter_score_insert, occurrences_cons, Nat2Z.inj_add, Z2Qc_inj_add.
  destruct (decide (c = letter));
    [subst; change (Z.of_nat 1) with 1%Z; rewrite Z2Qc_inj_1
    |change (Z.of_nat 0) with 0%Z; rewrite Z2Qc_inj_0]; ring.
Qed.

Lemma compute_letter_scores_neutral (regexp : list atom) (self : wordle)
    (letter : N) :
  letter_score (letter_scores (compute_letter_scores 1 regexp self)) letter
  = occurrence_total regexp self letter.
Proof.
  unfold compute_letter_scores, occurrence_total. simpl.
  assert (∀ l scores,
    letter_score
      (foldl (λ scores '(word, freq),
                if re_match regexp word
                then add_letter_scores 1 (mode self) word freq scores
                else scores) scores l) letter
    = (letter_score scores letter
       + Qsum ((λ p : list N * Qc,
                  (Qc_of_Z (Z.of_nat (occurrences letter p.1)) * p.2)%Qc)
               <$> filter (λ p : list N * Qc, re_match regexp p.1) l))%Qc) as H.
  { induction l as [|[word freq] l IH]; intros scores.
    { simpl. ring. }
    cbn [foldl]. rewrite IH, filter_cons. cbn [fst].
    destruct (re_match regexp word) eqn:Hm.
    - rewrite decide_True by done. rewrite add_letter_scores_neutral.
      rewrite fmap_cons. unfold Qsum at 2. cbn [foldr fst snd].
      fold (Qsum ((λ p : list N * Qc,
                     (Qc_of_Z (Z.of_nat (occurrences letter p.1)) * p.2)%Qc)
                  <$> filter (λ p : list N * Qc, re_match regexp p.1) l)).
      ring.
    - rewrite decide_False; [done|]. simpl. tauto. }
  rewrite H. unfold letter_score. rewrite lookup_empty. simpl. ring.
Qed.

(** C5, as amended.  In EXPLORE mode, with the multiplier [1] of the
    source, the aggregate value of a letter is the sum, over the corpus
    words the EXPLORE pattern matches, of the frequency of the word times
    the number of occurrences of the letter in it. *)
Theorem letter_scores_count_occurrences (self : wordle) (letter : N) :
  mode self = EXPLORE →
  letter_score
    (letter_scores (compute_letter_scores VOWEL_MULTIPLIER (regexp self) self))
    letter
  = occurrence_total (regexp_explore self) self letter.
Proof.
  intros Hmode. unfold VOWEL_MULTIPLIER. rewrite compute_letter_scores_neutral.
  unfold regexp. by rewrite Hmode.
Qed.

Lemma letter_scores_count_occurrences_witness :
  letter_score
    (letter_scores (compute_letter_scores VOWEL_MULTIPLIER
       (regexp (init scenario_corpus)) (init scenario_corpus))) (ord "p")
  = occurrence_total (regexp_explore (init scenario_corpus))
      (init scenario_corpus) (ord "p").
Proof. apply letter_scores_count_occurrences. reflexivity. Defined.

(** "apple" is the one word of the scenario with a [p], and has two: the
    aggregate of [p] is twice its frequency, where the specification
    counts the word once. *)
Lemma repeated_letter_is_counted_twice :
  letter_score
    (letter_scores (compute_letter_scores VOWEL_MULTIPLIER
       (regexp (init scenario_corpus)) (init scenario_corpus))) (ord "p")
  = Qc_of_Z 10
  ∧ spec_letter_aggregate VOWEL_MULTIPLIER (init scenario_corpus) (ord "p")
    = Qc_of_Z 5.
Proof. split; apply Qc_is_canon; by vm_compute. Qed.

(** With a multiplier other than [1], [freq *= VOWEL_MULTIPLIER] also
    weights the letters that follow a vowel in the word: in "angle" the
    [a] doubles the frequency [4] that [n] is then given. *)
Lemma vowel_multiplier_reaches_consonants :
  letter_score
    (letter_scores (compute_letter_scores 2
       (regexp (init [(lit "angle", Qc_of_Z 4)])) (init [(lit "angle", Qc_of_Z 4)])))
    (ord "n")
  = Qc_of_Z 8.
Proof. apply Qc_is_canon. by vm_compute. Qed.

(** A rejected word still counts in the letter scores. *)
Lemma rejected_words_still_count :
  letter_score
    (letter_scores
       (compute_letter_scores VOWEL_MULTIPLIER
          (regexp (init scenario_corpus))
          (set_bad_guesses {[Some (lit "angle")]} (init scenario_corpus))))
    (ord "g")
  = Qc_of_Z 4.
Proof. apply Qc_is_canon. by vm_compute. Qed.

(** C4.  A corpus whose one word has log-frequency [0]: the word is
    shortlisted in either mode, and [guess()] returns [None], because no
    score is above the [0] that [best_word] starts with.  [play] then
    switches to GUESS mode, prints [None] as its guess, and dies in
    [add_hints]. *)
Theorem zero_score_word_is_never_guessed :
  shortlisted (set_mode GUESS (init rare_corpus)) (lit "apple") = true
  ∧ (guess VOWEL_MULTIPLIER (set_mode GUESS (init rare_corpus))).1 = Ok None
  ∧ shortlisted (init rare_corpus) (lit "apple") = true
  ∧ (guess VOWEL_MULTIPLIER (init rare_corpus)).1 = Ok None
  ∧ (play NUMBER_OF_EXPLORE_ROUNDS VOWEL_MULTIPLIER 2
       (Run (init rare_corpus) [lit "ggggg"])).1
    = ([Switched], Some TypeError).
Proof. repeat split; by vm_compute. Qed.

End ScoringFacts.

(** ** [reverse_wordle.py]: what the normaliser accepts *)

Section NormalizerFacts.
Import ReverseWordle.

Lemma mapM_result_Raise {A B} (f : A → result B) (l : list A) (e : exn) :
  mapM f l = Raise e → ∃ a, a ∈ l ∧ f a = Raise e.
Proof.
  induction l as [|a l IH]; [done|]. rewrite mapM_result_cons.
  destruct (f a) as [b|e'] eqn:Hb.
  - destruct (mapM f l) as [bs|e']; [done|]. intros [= ->].
    destruct IH as (a' & Hin & Ha'); [done|]. exists a'. split; [by right|done].
  - intros [= ->]. exists a. split; [left|done].
Qed.

Lemma mapM_result_Exists {A B} (f : A → result B) (l : list A) :
  Exists (λ a, ∃ e, f a = Raise e) l → ∃ e, mapM f l = Raise e.
Proof.
  induction 1 as [a l [e He]|a l _ [e IH]]; rewrite mapM_result_cons.
  - rewrite He. eauto.
  - destruct (f a); [|eauto]. rewrite IH. eauto.
Qed.

Lemma canonical_hint_raises (letter : N) (e : exn) :
  canonical_hint letter = Raise e ↔ HINTS_MAP !! letter = None ∧ e = KeyError.
Proof.
  unfold canonical_hint. destruct (HINTS_MAP !! letter); naive_solver.
Qed.

Lemma canonical_hint_str_KeyError (line : list N) (e : exn) :
  canonical_hint_str line = Raise e → e = KeyError.
Proof.
  unfold canonical_hint_str. case_bool_decide; [done|].
  destruct (mapM canonical_hint (strip (lower line))) as [parts|e'] eqn:Hparts;
    [done|].
  apply mapM_result_Raise in Hparts as (c & _ & Hc).
  apply canonical_hint_raises in Hc as [_ ->]. by intros [= <-].
Qed.

(** X1.  [canonical_hint_str] raises, and then [KeyError], exactly on a
    line that, lowered and stripped, is not empty, not a control word, and
    has a character that is not a key of [HINTS_MAP]: a letter, a digit, a
    blank between two squares. *)
Theorem canonical_hint_str_raises (line : list N) (e : exn) :
  canonical_hint_str line = Raise e
  ↔ e = KeyError
    ∧ (strip (lower line) ∉ [lit ""; lit "end"; lit "show"])
    ∧ Exists (λ c, HINTS_MAP !! c = None) (strip (lower line)).
Proof.
  unfold canonical_hint_str. case_bool_decide as Hctl; [naive_solver|].
  destruct (mapM canonical_hint (strip (lower line))) as [parts|e'] eqn:Hparts;
    simpl.
  - split; [done|]. intros (_ & _ & Hex).
    destruct (mapM_result_Exists canonical_hint (strip (lower line))) as [e'' He''].
    { eapply Exists_impl; [exact Hex|]. intros c Hc. exists KeyError.
      by apply canonical_hint_raises. }
    congruence.
  - apply mapM_result_Raise in Hparts as (c & Hin & Hc).
    apply canonical_hint_raises in Hc as [Hc ->]. split.
    + intros [= <-]. repeat split; [done|]. apply Exists_exists. eauto.
    + by intros (-> & _).
Qed.

Lemma lstrip_spaces (pad s : list N) :
  Forall (λ c, is_space c = true) pad → lstrip (pad ++ s) = lstrip s.
Proof. induction 1 as [|c pad Hc _ IH]; [done|]. simpl. by rewrite Hc. Qed.

Lemma lstrip_app_keep (s t : list N) :
  lstrip s ≠ [] → lstrip (s ++ t) = lstrip s ++ t.
Proof.
  induction s as [|c s IH]; [done|]. simpl. destruct (is_space c); [apply IH|done].
Qed.

Lemma lstrip_all_spaces (s : list N) :
  lstrip s = [] → Forall (λ c, is_space c = true) s.
Proof.
  induction s as [|c s IH]; [constructor|]. simpl.
  destruct (is_space c) eqn:Hc; [|done]. intros H. constructor; auto.
Qed.

Lemma rstrip_spaces (s pad : list N) :
  Forall (λ c, is_space c = true) pad → rstrip (s ++ pad) = rstrip s.
Proof.
  intros Hpad. unfold rstrip. rewrite reverse_app.
  rewrite lstrip_spaces; [done|]. by apply Forall_reverse.
Qed.

Lemma strip_spaces (pad1 s pad2 : list N) :
  Forall (λ c, is_space c = true) pad1 →
  Forall (λ c, is_space c = true) pad2 →
  strip (pad1 ++ s ++ pad2) = strip s.
Proof.
  intros H1 H2. unfold strip. rewrite lstrip_spaces by done.
  destruct (decide (lstrip s = [])) as [Hs|Hs].
  - rewrite Hs. rewrite lstrip_spaces; [|by apply lstrip_all_spaces].
    rewrite <-(app_nil_l (lstrip pad2)).
    assert (lstrip pad2 = []) as ->; [|done].
    rewrite <-(app_nil_r pad2). by rewrite lstrip_spaces.
  - rewrite lstrip_app_keep by done. by apply rstrip_spaces.
Qed.

Lemma is_space_printable (c : N) : (33 ≤ c ≤ 132)%N → is_space c = false.
Proof.
  intros Hc. unfold is_space.
  rewrite (proj2 (N.leb_gt c 13)), (proj2 (N.leb_gt c 32)) by lia.
  rewrite (proj2 (N.leb_gt 8192 c)) by lia.
  rewrite !(proj2 (N.eqb_neq c _)) by lia.
  by rewrite !andb_false_r.
Qed.

Lemma lower_char_space (c : N) : is_space (lower_char c) = is_space c.
Proof.
  unfold lower_char. destruct (_ && _)%N eqn:Hc; [|done].
  apply andb_true_iff in Hc as [H1 H2].
  apply N.leb_le in H1, H2. rewrite !is_space_printable; [done|lia..].
Qed.

(** X2.  Whitespace before and after a line is not seen by
    [canonical_hint_str]: the line is normalised as it is without it. *)
Theorem canonical_hint_str_padding (pad1 line pad2 : list N) :
  Forall (λ c, is_space c = true) pad1 →
  Forall (λ c, is_space c = true) pad2 →
  canonical_hint_str (pad1 ++ line ++ pad2) = canonical_hint_str line.
Proof.
  intros H1 H2. unfold canonical_hint_str, lower. rewrite !fmap_app.
  rewrite strip_spaces; [done|..]; apply Forall_fmap;
    (eapply Forall_impl; [eassumption|]); intros c Hc; simpl;
    by rewrite lower_char_space.
Qed.

Lemma canonical_hint_str_padding_witness :
  canonical_hint_str (lit "  " ++ squares (lit "bygbb") ++ [10%N])
  = canonical_hint_str (squares (lit "bygbb")).
Proof.
  apply (canonical_hint_str_padding (lit "  ") (squares (lit "bygbb")) [10%N]);
    repeat constructor.
Defined.

Lemma canonical_hint_str_squares_witness :
  canonical_hint_str (squares (lit "bygbb")) = Ok (Some (lit "bygbb")).
Proof.
  apply (canonical_hint_str_squares (lit "bygbb")); [done|].
  repeat constructor; by vm_compute; set_solver.
Defined.

End NormalizerFacts.

(** ** [reverse_wordle.py]: feedback for a guess of another length *)

Section FeedbackLengthFacts.
Import ReverseWordle.

Lemma hint_raises (word : list N) (letter : N) (idx : nat) (e : exn) :
  hint word letter idx = Raise e
  ↔ e = IndexError ∧ letter ∈ word ∧ length word ≤ idx.
Proof.
  unfold hint. case_bool_decide as Hin.
  - destruct (word !! idx) as [c|] eqn:Hc.
    + apply lookup_lt_Some in Hc. case_bool_decide; (split; [done|]); lia.
    + apply lookup_ge_None in Hc. naive_solver.
  - naive_solver.
Qed.

Lemma hint_returns (word : list N) (letter : N) (idx : nat) (h : N) :
  hint word letter idx = Ok h → h = spec_hint word letter idx.
Proof.
  unfold hint, spec_hint. case_bool_decide as Hin.
  - destruct (word !! idx) as [c|] eqn:Hc; [|done].
    case_bool_decide as Hcl; intros [= <-].
    + subst c. by rewrite bool_decide_true.
    + rewrite bool_decide_false; [done|]. congruence.
  - intros [= <-]. rewrite bool_decide_false; [done|].
    intros Hw. apply Hin. by eapply list_elem_of_lookup_2.
Qed.

Lemma hints_returned (word guess : list N) (k : nat) (code : list N) :
  mapM (λ '(idx, letter), hint word letter idx) (zip (seq k (length guess)) guess)
  = Ok code →
  code = imap (λ i letter, spec_hint word letter (k + i)) guess.
Proof.
  revert k code. induction guess as [|g guess IH]; intros k code.
  - by intros [= <-].
  - cbn [length seq zip zip_with]. rewrite mapM_result_cons.
    destruct (hint word g k) as [h|] eqn:Hh; [|done].
    destruct (mapM _ _) as [hs|] eqn:Hhs; [|done]. intros [= <-].
    apply hint_returns in Hh as ->. apply IH in Hhs as ->. simpl.
    rewrite Nat.add_0_r. f_equal. apply imap_ext. intros i x _. simpl.
    f_equal. lia.
Qed.

(** X4.  [get_hint_str] on a guess of any length: it raises, and then
    [IndexError], exactly when the guess has, at a position past the end
    of the word, a letter that occurs in the word; else it returns one
    symbol for each letter of the guess. *)
Theorem get_hint_str_any_length (word guess : list N) :
  (∀ e, get_hint_str word guess = Raise e
        ↔ e = IndexError
          ∧ ∃ i letter, guess !! i = Some letter ∧ letter ∈ word
                        ∧ length word ≤ i)
  ∧ (∀ code, get_hint_str word guess = Ok code →
             code = imap (λ i letter, spec_hint word letter i) guess
             ∧ length code = length guess).
Proof.
  split.
  - intros e. unfold get_hint_str, enumerate. split.
    + intros H. apply mapM_result_Raise in H as ([i c] & Hin & Hc).
      apply hint_raises in Hc as (-> & Hw & Hi). split; [done|].
      exists i, c. split; [|done].
      apply list_elem_of_lookup in Hin as [j Hj].
      apply lookup_zip_with_Some in Hj as (i' & c' & [= <- <-] & Hs & Hg).
      apply lookup_seq in Hs as [-> _]. done.
    + intros (-> & i & c & Hg & Hw & Hi).
      destruct (mapM_result_Exists (λ '(idx, letter), hint word letter idx)
                 (zip (seq 0 (length guess)) guess)) as [e He].
      { apply Exists_exists. exists (i, c). split.
        - apply list_elem_of_lookup. exists i. apply lookup_zip_with_Some.
          exists i, c. split; [done|]. split; [|done].
          apply lookup_seq. split; [done|]. by eapply lookup_lt_Some.
        - exists IndexError. by apply hint_raises. }
      rewrite He. f_equal.
      apply mapM_result_Raise in He as ([j d] & _ & Hd).
      by apply hint_raises in Hd as (-> & _).
  - intros code H. unfold get_hint_str, enumerate in H.
    apply hints_returned in H as ->. split; [done|]. by rewrite length_imap.
Qed.

End FeedbackLengthFacts.

(** ** [reverse_wordle.py]: building the index *)

Section InvertedIndexFacts.
Import ReverseWordle Wordle InvertedIndex.

Implicit Types (idx : gmap (list N) (gset (list N))) (word guess code : list N).

Lemma get_hint_str_short word guess :
  length guess ≤ length word →
  get_hint_str word guess = Ok (imap (λ i letter, spec_hint word letter i) guess).
Proof.
  intros Hlen. unfold get_hint_str, enumerate. by rewrite hints_from by (simpl; lia).
Qed.

Lemma merge_entry_empty (entry : option (gset (list N))) :
  merge_entry entry ∅ = entry.
Proof.
  destruct entry as [words|]; simpl; [by rewrite (right_id_L ∅ (∪))|].
  by rewrite bool_decide_true.
Qed.

Lemma merge_entry_union (entry : option (gset (list N))) (new1 new2 : gset (list N)) :
  merge_entry (merge_entry entry new1) new2 = merge_entry entry (new1 ∪ new2).
Proof.
  destruct entry as [words|]; simpl; [by rewrite (assoc_L (∪))|].
  case_bool_decide as H1; simpl.
  - subst new1. by rewrite (left_id_L ∅ (∪)).
  - rewrite bool_decide_false; [done|]. set_solver.
Qed.

Lemma add_to_index_lookup word guess idx (hint_str : list N) :
  get_hint_str word guess = Ok hint_str →
  ∃ idx', add_to_index word guess idx = (Ok (), idx')
    ∧ ∀ code, idx' !! code
        = merge_entry (idx !! code)
            (if decide (hint_str = code) then {[word]} else ∅).
Proof.
  intros Hh. unfold add_to_index. rewrite Hh. eexists. split; [done|].
  intros code. destruct (decide (hint_str = code)) as [<-|Hne].
  - rewrite lookup_alter_eq. destruct (idx !! hint_str) as [words|] eqn:Hw; simpl.
    + by rewrite Hw.
    + rewrite lookup_insert_eq. simpl. rewrite bool_decide_false by set_solver.
      by rewrite (left_id_L ∅ (∪)).
  - rewrite lookup_alter_ne by done. rewrite merge_entry_empty.
    destruct (idx !! hint_str); [done|]. by rewrite lookup_insert_ne.
Qed.

(** The loop over the guesses, for one word. *)
Lemma add_guesses_lookup word (guesses : list (list N)) idx :
  (∀ guess, guess ∈ guesses → length guess ≤ length word) →
  ∃ idx', for_each (add_to_index word) guesses idx = (Ok (), idx')
    ∧ ∀ code, idx' !! code
        = merge_entry (idx !! code)
            (if decide (Exists (λ guess, get_hint_str word guess = Ok code) guesses)
             then {[word]} else ∅).
Proof.
  revert idx. induction guesses as [|guess guesses IH]; intros idx Hlen.
  - eexists. split; [done|]. intros code.
    rewrite decide_False; [by rewrite merge_entry_empty|]. by intros ?%Exists_nil.
  - simpl.
    pose proof (get_hint_str_short word guess (Hlen _ (list_elem_of_here _ _)))
      as Hh.
    destruct (add_to_index_lookup word guess idx _ Hh) as (idx1 & -> & H1).
    destruct (IH idx1) as (idx2 & -> & H2).
    { intros g Hg. apply Hlen. by right. }
    eexists. split; [done|]. intros code. rewrite H2, H1, merge_entry_union.
    f_equal.
    destruct (decide (Exists _ (guess :: guesses))) as [Hex|Hex];
      rewrite Exists_cons, Hh in Hex;
      repeat case_decide; set_solver.
Qed.

(** The loop over the words. *)
Lemma add_words_lookup (words guesses : list (list N)) idx :
  (∀ word guess, word ∈ words → guess ∈ guesses → length guess ≤ length word) →
  ∃ idx', for_each (λ word, for_each (add_to_index word) guesses) words idx
          = (Ok (), idx')
    ∧ ∀ code, idx' !! code
        = merge_entry (idx !! code)
            (list_to_set
               (filter (λ word, Exists (λ guess, get_hint_str word guess = Ok code)
                                       guesses) words)).
Proof.
  revert idx. induction words as [|word words IH]; intros idx Hlen.
  - eexists. split; [done|]. intros code. by rewrite merge_entry_empty.
  - simpl. destruct (add_guesses_lookup word guesses idx) as (idx1 & -> & H1).
    { intros g Hg. apply Hlen; [left|done]. }
    destruct (IH idx1) as (idx2 & -> & H2).
    { intros w g Hw Hg. apply Hlen; [by right|done]. }
    eexists. split; [done|]. intros code. rewrite H2, H1, merge_entry_union.
    f_equal. rewrite filter_cons.
    destruct (decide _); [done|by rewrite (left_id_L ∅ (∪))].
Qed.

Lemma produced_elements (wordle_words all_words : gset (list N)) code :
  list_to_set
    (filter (λ word, Exists (λ guess, get_hint_str word guess = Ok code)
                            (elements all_words)) (elements wordle_words))
  = produced wordle_words all_words code.
Proof.
  apply set_eq. intros word. unfold produced.
  rewrite elem_of_list_to_set, list_elem_of_filter, elem_of_elements, elem_of_filter.
  rewrite Exists_exists. unfold set_Exists.
  setoid_rewrite elem_of_elements. tauto.
Qed.

Lemma create_inverted_indexes_lookup idx (wordle_words wordle_dict : gset (list N)) :
  (∀ word guess, word ∈ wordle_words → guess ∈ wordle_dict ∪ wordle_words →
                 length guess ≤ length word) →
  ∃ idx', create_inverted_indexes idx wordle_words wordle_dict = (Ok (), idx')
    ∧ ∀ code, idx' !! code
        = merge_entry (idx !! code)
            (produced wordle_words (wordle_dict ∪ wordle_words) code).
Proof.
  intros Hlen. unfold create_inverted_indexes.
  destruct (add_words_lookup (elements wordle_words)
              (elements (wordle_dict ∪ wordle_words)) idx) as (idx' & -> & H).
  { intros w g Hw%elem_of_elements Hg%elem_of_elements. by apply Hlen. }
  exists idx'. split; [done|]. intros code. by rewrite H, produced_elements.
Qed.

Lemma elem_of_produced (wordle_words all_words : gset (list N)) code word :
  word ∈ produced wordle_words all_words code
  ↔ word ∈ wordle_words
    ∧ ∃ guess, guess ∈ all_words ∧ get_hint_str word guess = Ok code.
Proof.
  unfold produced. rewrite elem_of_filter. unfold set_Exists. naive_solver.
Qed.

(** X5.  Where no guess is longer than an answer word,
    [create_inverted_indexes] on an empty shelf returns, and what it
    leaves on the shelf depends on the two sets of words only, not on the
    order in which the sets are run through: a word is under a code
    exactly when it is an answer word and some guess gives it that code,
    and no entry is empty. *)
Theorem create_inverted_indexes_entries (wordle_words wordle_dict : gset (list N)) :
  (∀ word guess, word ∈ wordle_words → guess ∈ wordle_dict ∪ wordle_words →
                 length guess ≤ length word) →
  ∃ idx', create_inverted_indexes ∅ wordle_words wordle_dict = (Ok (), idx')
    ∧ (∀ code word,
         word ∈ default ∅ (idx' !! code)
         ↔ word ∈ wordle_words
           ∧ ∃ guess, guess ∈ wordle_dict ∪ wordle_words
                      ∧ get_hint_str word guess = Ok code)
    ∧ ∀ code, idx' !! code ≠ Some ∅.
Proof.
  intros Hlen.
  destruct (create_inverted_indexes_lookup ∅ wordle_words wordle_dict Hlen)
    as (idx' & Hrun & Hidx').
  exists idx'. split; [done|]. split.
  - intros code word. rewrite Hidx', lookup_empty, <-elem_of_produced. simpl.
    case_bool_decide as He; [|done]. rewrite He. done.
  - intros code. rewrite Hidx', lookup_empty. simpl.
    case_bool_decide; [done|congruence].
Qed.

Lemma create_inverted_indexes_entries_witness :
  ∃ idx',
    create_inverted_indexes ∅ {[lit "apple"; lit "ample"]} {[lit "spelt"]}
    = (Ok (), idx')
    ∧ (∀ code word,
         word ∈ default ∅ (idx' !! code)
         ↔ word ∈ ({[lit "apple"; lit "ample"]} : gset (list N))
           ∧ ∃ guess, guess ∈ ({[lit "spelt"]} ∪ {[lit "apple"; lit "ample"]}
                               : gset (list N))
                      ∧ get_hint_str word guess = Ok code)
    ∧ ∀ code, idx' !! code ≠ Some ∅.
Proof.
  apply (create_inverted_indexes_entries {[lit "apple"; lit "ample"]}
           {[lit "spelt"]}).
  intros word guess Hw Hg.
  assert (length word = 5) as -> by (set_unfold; naive_solver).
  assert (length guess = 5) as -> by (set_unfold; naive_solver). lia.
Defined.

(** X6.  On a shelf that already has entries, [create_inverted_indexes]
    adds to each entry and removes nothing: under each code the shelf has
    afterwards what it had there, and the answer words to which some guess
    gives that code.  Building the index again over what the first build
    left changes nothing. *)
Theorem create_inverted_indexes_again idx (wordle_words wordle_dict : gset (list N)) :
  (∀ word guess, word ∈ wordle_words → guess ∈ wordle_dict ∪ wordle_words →
                 length guess ≤ length word) →
  ∃ idx', create_inverted_indexes idx wordle_words wordle_dict = (Ok (), idx')
    ∧ (∀ code, idx' !! code
         = merge_entry (idx !! code)
             (produced wordle_words (wordle_dict ∪ wordle_words) code))
    ∧ create_inverted_indexes idx' wordle_words wordle_dict = (Ok (), idx').
Proof.
  intros Hlen.
  destruct (create_inverted_indexes_lookup idx wordle_words wordle_dict Hlen)
    as (idx1 & Hrun1 & Hidx1).
  destruct (create_inverted_indexes_lookup idx1 wordle_words wordle_dict Hlen)
    as (idx2 & Hrun2 & Hidx2).
  exists idx1. split; [done|]. split; [done|].
  rewrite Hrun2. f_equal. apply map_eq. intros code.
  rewrite Hidx2, Hidx1, merge_entry_union. by rewrite (idemp_L (∪)).
Qed.

Lemma create_inverted_indexes_again_witness :
  ∃ idx',
    create_inverted_indexes scenario_index {[lit "apple"; lit "ample"]} {[lit "spelt"]}
    = (Ok (), idx')
    ∧ (∀ code, idx' !! code
         = merge_entry (scenario_index !! code)
             (produced {[lit "apple"; lit "ample"]}
                ({[lit "spelt"]} ∪ {[lit "apple"; lit "ample"]}) code))
    ∧ create_inverted_indexes idx' {[lit "apple"; lit "ample"]} {[lit "spelt"]}
      = (Ok (), idx').
Proof.
  apply (create_inverted_indexes_again scenario_index
           {[lit "apple"; lit "ample"]} {[lit "spelt"]}).
  intros word guess Hw Hg.
  assert (length word = 5) as -> by (set_unfold; naive_solver).
  assert (length guess = 5) as -> by (set_unfold; naive_solver). lia.
Defined.

Lemma all_green_is_same_word word guess :
  length guess = length word →
  get_hint_str word guess = Ok (replicate (length word) (ord "g")) ↔ guess = word.
Proof.
  intros Hlen. rewrite get_hint_str_short by lia. split.
  - intros [= H]. apply list_eq. intros i.
    destruct (guess !! i) as [c|] eqn:Hc.
    + assert (imap (λ i letter, spec_hint word letter i) guess !! i
              = Some (spec_hint word c i)) as Hi
        by (by rewrite list_lookup_imap, Hc).
      rewrite H in Hi. apply lookup_replicate in Hi as [Hi _].
      unfold spec_hint in Hi. case_bool_decide as Hw; [done|].
      by case_bool_decide.
    + apply lookup_ge_None in Hc. symmetry. apply lookup_ge_None. lia.
  - intros ->. f_equal. apply list_eq. intros i. rewrite list_lookup_imap.
    destruct (word !! i) as [c|] eqn:Hc; simpl.
    + rewrite spec_hint_same by done. symmetry. apply lookup_replicate.
      split; [done|]. by eapply lookup_lt_Some.
    + symmetry. apply lookup_ge_None. rewrite length_replicate.
      by apply lookup_ge_None.
Qed.

(** X7.  On a shelf that was empty, and for words that all have [n]
    letters, the entry of the all-green code is the whole list of answer
    words: no guess but the word itself gives it. *)
Theorem all_green_entry_is_every_answer (n : nat)
    (wordle_words wordle_dict : gset (list N)) (word : list N) :
  (∀ w, w ∈ wordle_dict ∪ wordle_words → length w = n) →
  word ∈ wordle_words →
  ∃ idx', create_inverted_indexes ∅ wordle_words wordle_dict = (Ok (), idx')
    ∧ idx' !! replicate n (ord "g") = Some wordle_words.
Proof.
  intros Hn Hword.
  destruct (create_inverted_indexes_lookup ∅ wordle_words wordle_dict)
    as (idx' & Hrun & Hidx').
  { intros w g Hw Hg. rewrite (Hn w), (Hn g); [done|set_solver..]. }
  exists idx'. split; [done|]. rewrite Hidx', lookup_empty. simpl.
  assert (produced wordle_words (wordle_dict ∪ wordle_words) (replicate n (ord "g"))
          = wordle_words) as ->.
  { apply set_eq. intros w. rewrite elem_of_produced. split; [tauto|].
    intros Hw. split; [done|]. exists w. split; [set_solver|].
    rewrite <-(Hn w) by set_solver. by apply all_green_is_same_word. }
  rewrite bool_decide_false; [done|set_solver].
Qed.

Lemma all_green_entry_is_every_answer_witness :
  ∃ idx',
    create_inverted_indexes ∅ {[lit "apple"; lit "ample"]} {[lit "spelt"]}
    = (Ok (), idx')
    ∧ idx' !! replicate 5 (ord "g") = Some {[lit "apple"; lit "ample"]}.
Proof.
  apply (all_green_entry_is_every_answer 5 {[lit "apple"; lit "ample"]}
           {[lit "spelt"]} (lit "apple")).
  - intros w Hw. set_unfold. naive_solver.
  - set_solver.
Defined.

End InvertedIndexFacts.

(** ** [reverse_wordle.py]: the query loop *)

Section QueryLoopFacts.
Import ReverseWordle InvertedIndex QueryLoop.

Implicit Types (idx : gmap (list N) (gset (list N))) (s : session).

(** What a pass that goes on to the next line did. *)
Lemma reverse_wordle_body_cases s (line : list N) s' :
  reverse_wordle_body s line = Ok (Next s') →
  s' = s
  ∨ ∃ code s1, canonical_hint_str line = Ok (Some code)
      ∧ code ≠ lit "ggggg"
      ∧ narrow s code = Ok s1
      ∧ s' = Session (inv_index s1) (candidates s1)
                     (accumulate s1 ++ [(code, len_candidates s1)]).
Proof.
  unfold reverse_wordle_body.
  destruct (canonical_hint_str line) as [[code|]|]; simpl; [| |done].
  - case_bool_decide as H1; simpl; [intros H; simplify_eq; by left|].
    case_bool_decide as H2; simpl; [intros H; simplify_eq; by left|].
    case_bool_decide as H3; [done|].
    destruct (narrow s code) as [s1|] eqn:Hs1; simpl; [|done].
    intros H. simplify_eq. right. eauto 10.
  - intros H. simplify_eq. by left.
Qed.

(** An invariant of the passes holds of the session the loop dies in. *)
Lemma reverse_wordle_loop_invariant (P : session → Prop) s (lines : list (list N)) :
  P s →
  (∀ s line s', P s → reverse_wordle_body s line = Ok (Next s') → P s') →
  ∃ e s', reverse_wordle_loop s lines = Died e s' ∧ P s'.
Proof.
  intros Hs Hstep. revert s Hs.
  induction lines as [|line lines IH]; intros s Hs; simpl; [eauto|].
  destruct (reverse_wordle_body s line) as [f|e] eqn:Hf; [|eauto].
  destruct (reverse_wordle_body_next _ _ _ Hf) as [s' ->]. eauto.
Qed.

Lemma narrow_cases s (code : list N) s' :
  narrow s code = Ok s' →
  ∃ matches, inv_index s !! code = Some matches
    ∧ accumulate s' = accumulate s
    ∧ ((not_candidates s = true ∧ inv_index s' = inv_index s
        ∧ candidates s' = Some code)
       ∨ (not_candidates s = false
          ∧ ∃ k, candidates s = Some k ∧ candidates s' = Some k
              ∧ inv_index s'
                = <[k := default ∅ (inv_index s !! k) ∩ matches]> (inv_index s))).
Proof.
  unfold narrow. destruct (inv_index s !! code) as [matches|] eqn:Hm; [|done].
  intros H. exists matches. split; [done|].
  destruct (candidates s) as [k|] eqn:Hk.
  - destruct (not_candidates s) eqn:Hn; injection H as <-; simpl.
    + split; [done|]. left. done.
    + split; [done|]. right. split; [done|]. eauto.
  - injection H as <-. simpl. split; [done|]. left.
    unfold not_candidates, candidates_set. by rewrite Hk.
Qed.

Lemma within_step idx s (line : list N) s' :
  within idx s → reverse_wordle_body s line = Ok (Next s') → within idx s'.
Proof.
  intros (Hdom & Hsub & Hkey) [->|(code & s1 & _ & _ & Hs1 & ->)]%reverse_wordle_body_cases;
    [done|].
  apply narrow_cases in Hs1 as (matches & Hm & _ & [(_ & Hi & Hc)|(_ & k & Hk & Hc & Hi)]);
    unfold within; simpl; rewrite Hi, Hc.
  - split; [done|]. split; [done|]. intros k [= <-]. by rewrite Hm.
  - destruct (Hkey k Hk) as [c Hck]. split; [|split].
    + rewrite dom_insert_L, <-Hdom. apply elem_of_dom_2 in Hck. set_solver.
    + intros code'. destruct (decide (k = code')) as [<-|Hne].
      * rewrite lookup_insert_eq. simpl. specialize (Hsub k). set_solver.
      * by rewrite lookup_insert_ne.
    + intros k' [= <-]. by rewrite lookup_insert_eq.
Qed.

(** X8.  The query loop writes to the shelf, and only by taking words
    away: when it ends, the index has the keys it had, and under each key
    a part of what was there. *)
Theorem reverse_wordle_only_shrinks idx (lines : list (list N)) :
  ∃ e s, reverse_wordle idx lines = Died e s
    ∧ dom (inv_index s) = dom idx
    ∧ ∀ code, default ∅ (inv_index s !! code) ⊆ default ∅ (idx !! code).
Proof.
  destruct (reverse_wordle_loop_invariant (within idx) (session_start idx) lines)
    as (e & s & Hrun & Hdom & Hsub & _).
  - split; [done|]. split; [done|]. by intros k.
  - apply within_step.
  - by exists e, s.
Qed.

Lemma narrowing_snoc (sizes : list nat) (b : nat) :
  narrowing sizes → (∀ a, last sizes = Some a → b ≤ a ∨ a = 0) →
  narrowing (sizes ++ [b]).
Proof.
  intros Hs Hb i x y Hx Hy.
  destruct (decide (S i < length sizes)) as [Hlt|Hge].
  - rewrite lookup_app_l in Hx, Hy by lia. by eapply Hs.
  - apply lookup_lt_Some in Hy as Hi. rewrite length_app in Hi. simpl in Hi.
    assert (S i = length sizes) as Hlen by lia.
    rewrite lookup_app_l in Hx by lia.
    rewrite lookup_app_r in Hy by lia.
    replace (S i - length sizes) with 0 in Hy by lia. injection Hy as <-.
    apply Hb. rewrite last_lookup. by replace (pred (length sizes)) with i by lia.
Qed.

Lemma narrowed_step s (line : list N) s' :
  narrowed s → reverse_wordle_body s line = Ok (Next s') → narrowed s'.
Proof.
  intros [Hnar Hlast] [->|(code & s1 & _ & _ & Hs1 & ->)]%reverse_wordle_body_cases;
    [done|].
  pose proof (narrow_nonempty _ _ _ Hs1) as Hle.
  apply narrow_cases in Hs1 as (matches & Hm & Hacc & Hcases).
  unfold narrowed. cbn [accumulate]. rewrite Hacc, fmap_app.
  change ([(code, len_candidates s1)].*2) with [len_candidates s1]. split.
  - apply narrowing_snoc; [done|]. intros a [-> [k Hk]]%Hlast.
    destruct (not_candidates s) eqn:Hnot; [right|left; by apply Hle].
    unfold not_candidates, len_candidates, candidates_set in *. rewrite Hk in *.
    simpl. apply bool_decide_eq_true in Hnot. rewrite Hnot. apply size_empty.
  - intros a. rewrite last_snoc. intros [= <-]. split; [done|]. simpl.
    destruct Hcases as [(_ & _ & ->)|(_ & k & _ & -> & _)]; eauto.
Qed.

(** X9.  The sizes the query loop prints narrow: from one line to the
    next the size does not grow, unless it was [0]. *)
Theorem reported_sizes_narrow idx (lines : list (list N)) :
  narrowing (reported_sizes (reverse_wordle idx lines)).
Proof.
  destruct (reverse_wordle_loop_invariant narrowed (session_start idx) lines)
    as (e & s & Hrun & Hnar & _).
  - split; [|done]. by intros i a b.
  - apply narrowed_step.
  - unfold reverse_wordle. by rewrite Hrun.
Qed.

Lemma accepted_dom idx idx' (line : list N) :
  dom idx' = dom idx → accepted idx' line → accepted idx line.
Proof.
  intros Hdom. unfold accepted.
  destruct (canonical_hint_str line) as [[code|]|]; [|done..].
  rewrite <-!elem_of_dom, Hdom. done.
Qed.

Lemma reverse_wordle_body_accepted s (line : list N) :
  match reverse_wordle_body s line with
  | Ok _ => accepted (inv_index s) line
  | Raise e => e = KeyError ∧ ¬ accepted (inv_index s) line
  end.
Proof.
  unfold reverse_wordle_body, accepted.
  pose proof (canonical_hint_str_KeyError line) as Hraise.
  destruct (canonical_hint_str line) as [[code|]|e] eqn:Hline; simpl; [|done|].
  - case_bool_decide as H1; simpl; [by left|].
    case_bool_decide as H2; simpl; [by right; left|].
    case_bool_decide as H3; [by right; right; rewrite H3 in Hline;
      destruct (canonical_hint_str_not_end line)|].
    unfold narrow. destruct (inv_index s !! code) as [matches|] eqn:Hm; simpl.
    + destruct (candidates s); [destruct (not_candidates s)|]; simpl; eauto.
    + split; [done|]. intros [?|[?|[? ?]]]; done.
  - split; [|tauto]. by apply Hraise.
Qed.

(** X10.  How the query loop ends: never by printing its history; by
    [EOFError] when every line was accepted (blank, a control word, the
    all-green row, or a row of squares whose code is a key of the
    index), and else by [KeyError], at the first line that is not. *)
Theorem reverse_wordle_ending idx (lines : list (list N)) :
  ∃ e s, reverse_wordle idx lines = Died e s
    ∧ (e = EOFError ∨ e = KeyError)
    ∧ (e = EOFError ↔ Forall (accepted idx) lines).
Proof.
  unfold reverse_wordle.
  assert (within idx (session_start idx)) as Hs.
  { split; [done|]. split; [done|]. by intros k. }
  revert Hs. generalize (session_start idx).
  induction lines as [|line lines IH]; intros s Hs; simpl.
  - exists EOFError, s. split; [done|]. split; [by left|]. done.
  - pose proof (reverse_wordle_body_accepted s line) as Hacc.
    destruct (reverse_wordle_body s line) as [f|e] eqn:Hf.
    + destruct (reverse_wordle_body_next _ _ _ Hf) as [s' ->].
      destruct (IH s') as (e & s'' & -> & He & Hiff).
      { by eapply within_step. }
      exists e, s''. split; [done|]. split; [done|]. rewrite Hiff.
      rewrite Forall_cons. split; [|tauto]. intros Hall. split; [|done].
      eapply accepted_dom; [|exact Hacc]. apply Hs.
    + destruct Hacc as [-> Hacc]. exists KeyError, s. split; [done|].
      split; [by right|]. split; [done|]. intros [Hline _]%Forall_cons.
      destruct Hacc. eapply accepted_dom; [|exact Hline]. symmetry. apply Hs.
Qed.

Lemma reverse_wordle_loop_runs (P : session → Prop) s (lines : list (list N)) :
  P s →
  (∀ s line, line ∈ lines → P s →
             ∃ s', reverse_wordle_body s line = Ok (Next s') ∧ P s') →
  ∃ s', reverse_wordle_loop s lines = Died EOFError s' ∧ P s'.
Proof.
  revert s. induction lines as [|line lines IH]; intros s Hs Hstep; simpl; [eauto|].
  destruct (Hstep s line) as (s' & -> & Hs'); [left|done|].
  apply IH; [done|]. intros s1 l Hl. apply Hstep. by right.
Qed.

Lemma size_elem_of (ws : gset (list N)) (word : list N) : word ∈ ws → 1 ≤ size ws.
Proof.
  intros Hw. assert (size ws ≠ 0); [|lia]. apply size_non_empty_iff. set_solver.
Qed.

Lemma kept_step (word : list N) (codes : list N → Prop) s (line code : list N) :
  kept word codes s → codes code → canonical_hint_str line = Ok (Some code) →
  ∃ s', reverse_wordle_body s line = Ok (Next s') ∧ kept word codes s'.
Proof.
  intros (Hidx & Hcand & Hsizes) Hcode Hline.
  unfold reverse_wordle_body. rewrite Hline. simpl.
  case_bool_decide as H1; simpl; [by eexists|].
  case_bool_decide as H2; simpl; [by eexists|].
  case_bool_decide as H3;
    [rewrite H3 in Hline; by destruct (canonical_hint_str_not_end line)|].
  destruct (Hidx code Hcode) as (matches & Hm & Hw).
  unfold narrow. rewrite Hm.
  assert (∀ i c a, (∀ code, codes code → ∃ ws, i !! code = Some ws ∧ word ∈ ws) →
            codes c →
            kept word codes
              (Session i (Some c)
                 (a ++ [(code, len_candidates (Session i (Some c) a))])) ↔
            Forall (λ n, 1 ≤ n) a.*2) as Hkept.
  { intros i c a Hi Hc. unfold kept. simpl. rewrite fmap_app, Forall_app.
    split; [tauto|]. intros Ha. split; [done|]. split; [by intros k [= <-]|].
    split; [done|]. repeat constructor. simpl.
    unfold len_candidates, candidates_set. simpl.
    destruct (Hi c Hc) as (ws & -> & Hws). simpl. by eapply size_elem_of. }
  destruct (candidates s) as [k|] eqn:Hk; [destruct (not_candidates s)|]; simpl;
    eexists; (split; [done|]); apply Hkept; try done.
  - intros code' Hcode'. destruct (decide (k = code')) as [<-|Hne].
    + rewrite lookup_insert_eq. eexists. split; [done|].
      destruct (Hidx k (Hcand k eq_refl)) as (ws & -> & Hws). simpl. set_solver.
    + rewrite lookup_insert_ne by done. by apply Hidx.
  - by apply Hcand.
Qed.

(** X11.  With the index that [create_inverted_indexes] built, and lines
    that each show the feedback of the hidden answer word for some guess,
    the query loop runs until the input ends, no size it prints is [0],
    and the hidden word is in the set [candidates] refers to. *)
Theorem genuine_feedback_keeps_the_answer idx
    (wordle_words wordle_dict : gset (list N)) (word : list N)
    (lines : list (list N)) :
  (∀ word guess, word ∈ wordle_words → guess ∈ wordle_dict ∪ wordle_words →
                 length guess ≤ length word) →
  word ∈ wordle_words →
  Forall (λ line, ∃ guess code,
            guess ∈ wordle_dict ∪ wordle_words
            ∧ get_hint_str word guess = Ok code
            ∧ canonical_hint_str line = Ok (Some code)) lines →
  ∃ idx' s,
    create_inverted_indexes idx wordle_words wordle_dict = (Ok (), idx')
    ∧ reverse_wordle idx' lines = Died EOFError s
    ∧ Forall (λ n, 1 ≤ n) (accumulate s).*2
    ∧ ∀ c, candidates_set s = Some c → word ∈ c.
Proof.
  intros Hlen Hword Hlines.
  destruct (create_inverted_indexes_lookup idx wordle_words wordle_dict Hlen)
    as (idx' & Hrun & Hidx').
  exists idx'.
  pose (codes := λ code : list N,
          ∃ guess, guess ∈ wordle_dict ∪ wordle_words
                   ∧ get_hint_str word guess = Ok code).
  destruct (reverse_wordle_loop_runs (kept word codes) (session_start idx') lines)
    as (s & Hloop & Hidx & Hcand & Hsizes).
  - split; [|split; [done|constructor]]. intros code Hcode.
    assert (word ∈ produced wordle_words (wordle_dict ∪ wordle_words) code) as Hp
      by (by apply elem_of_produced).
    rewrite Hidx'. destruct (idx !! code) as [ws|]; simpl.
    + eexists. split; [done|]. set_solver.
    + rewrite bool_decide_false by set_solver. eauto.
  - intros s line Hline Hs. rewrite Forall_forall in Hlines.
    destruct (Hlines line Hline) as (guess & code & Hg & Hcode & Hnorm).
    eapply kept_step; [done| |done]. by exists guess.
  - exists s. split; [done|]. split; [done|]. split; [done|].
    intros c. unfold candidates_set. destruct (candidates s) as [k|] eqn:Hk; [|done].
    intros [= <-]. destruct (Hidx k (Hcand k eq_refl)) as (ws & -> & Hws). done.
Qed.

Lemma genuine_feedback_keeps_the_answer_witness :
  ∃ idx' s,
    create_inverted_indexes ∅ {[lit "apple"; lit "ample"]} {[lit "spelt"]}
    = (Ok (), idx')
    ∧ reverse_wordle idx' [squares (lit "bgygb")] = Died EOFError s
    ∧ Forall (λ n, 1 ≤ n) (accumulate s).*2
    ∧ ∀ c, candidates_set s = Some c → lit "apple" ∈ c.
Proof.
  apply (genuine_feedback_keeps_the_answer ∅ {[lit "apple"; lit "ample"]}
           {[lit "spelt"]} (lit "apple") [squares (lit "bgygb")]).
  - intros word guess Hw Hg.
    assert (length word = 5) as -> by (set_unfold; naive_solver).
    assert (length guess = 5) as -> by (set_unfold; naive_solver). lia.
  - set_solver.
  - repeat constructor. exists (lit "spelt"), (lit "bgygb").
    split; [set_solver|]. split; by vm_compute.
Defined.

End QueryLoopFacts.

(** ** [wordle.py]: EXPLORE mode, and hints that are true *)

Section SolverFacts.
Import ReverseWordle Wordle Explore.

Lemma re_match_replicate (n : nat) (a : atom) (word : list N) :
  10%N ∉ word →
  re_match (replicate n a) word = true
  ↔ length word = n ∧ Forall (λ c, atom_match a c = true) word.
Proof.
  revert word. induction n as [|n IH]; intros word Hnl.
  - destruct word as [|c [|c' word]]; simpl.
    + split; [by split|done].
    + rewrite bool_decide_eq_true. split; [|by intros [? _]].
      intros ->. destruct Hnl. left.
    + split; [done|]. by intros [? _].
  - destruct word as [|c word]; simpl; [split; [done|by intros [? _]]|].
    rewrite andb_true_iff, IH, Forall_cons by (intros ?; apply Hnl; by right).
    split; [intros (? & <- & ?)|intros ([= <-] & ? & ?)]; done.
Qed.

Lemma valid_word_no_newline (word : list N) :
  valid_word word = true → 10%N ∉ word.
Proof.
  intros [_ Hw]%valid_word_letters Hin. apply Hw in Hin. lia.
Qed.

(** The EXPLORE pattern on a word of five letters. *)
Lemma regexp_explore_match (self : wordle) (word : list N) :
  valid_word word = true →
  re_match (regexp_explore self) word = true
  ↔ ∀ c, c ∈ word →
         (c ∉ disallowed_letters self) ∧ (c ∉ included_letters self)
         ∧ (Some c ∉ exact_matches self).
Proof.
  intros Hword. pose proof (valid_word_no_newline word Hword) as Hnl.
  apply valid_word_letters in Hword as [Hlen _]. unfold regexp_explore.
  set (skip := disallowed_letters self ∪ included_letters self
               ∪ list_to_set (omap id (exact_matches self))).
  assert (∀ c, c ∈ skip ↔ c ∈ disallowed_letters self ∨ c ∈ included_letters self
                          ∨ Some c ∈ exact_matches self) as Hskip.
  { intros c. unfold skip. rewrite !elem_of_union, elem_of_list_to_set.
    rewrite list_elem_of_omap. split.
    - intros [[?|?]|(e & He & Hc)]; [tauto..|]. simpl in Hc. subst e. tauto.
    - intros [?|[?|?]]; [tauto..|]. right. by exists (Some c). }
  assert (re_match (if bool_decide (sorted skip = []) then replicate 5 Dot
                    else replicate 5 (NoneOf (sorted skip))) word = true
          ↔ ∀ c, c ∈ word → c ∉ skip) as ->.
  { case_bool_decide as Hs.
    - apply sorted_nil in Hs. rewrite Hs, re_match_replicate by done.
      split; [set_solver|]. intros _. split; [done|].
      apply Forall_forall. intros c Hc. simpl.
      rewrite negb_true_iff, bool_decide_eq_false. by intros ->.
    - rewrite re_match_replicate by done. rewrite Forall_forall. simpl.
      setoid_rewrite negb_true_iff. setoid_rewrite bool_decide_eq_false.
      setoid_rewrite elem_of_sorted. tauto. }
  setoid_rewrite Hskip. split; intros Hw c Hc; specialize (Hw c Hc); tauto.
Qed.

(** X12.  In EXPLORE mode a corpus word is shortlisted exactly when it
    was not rejected and none of its letters is disallowed, included, or
    an exact match. *)
Theorem explore_mode_eligibility (self : wordle) (word : list N) :
  mode self = EXPLORE → well_formed self → valid_word word = true →
  shortlisted self word = true ↔ spec_eligible_explore self word.
Proof.
  intros Hmode _ Hword.
  unfold shortlisted, eligible, regexp, spec_eligible_explore.
  rewrite Hmode, andb_true_r, andb_true_iff, negb_true_iff, bool_decide_eq_false.
  rewrite regexp_explore_match by done. tauto.
Qed.

Lemma explore_mode_eligibility_witness :
  (shortlisted (set_disallowed_letters {[ord "x"]} (init [])) (lit "apple") = true
   ↔ spec_eligible_explore (set_disallowed_letters {[ord "x"]} (init []))
       (lit "apple"))
  ∧ shortlisted (set_disallowed_letters {[ord "x"]} (init [])) (lit "apple") = true
  ∧ shortlisted (set_disallowed_letters {[ord "x"]} (init [])) (lit "xebec") = false.
Proof.
  split; [|split; reflexivity].
  apply (explore_mode_eligibility (set_disallowed_letters {[ord "x"]} (init []))
           (lit "apple")); [reflexivity| |reflexivity].
  split; [reflexivity|]. split; [|split; [set_solver|split; [|constructor]]].
  - intros c Hc. simpl in Hc. apply elem_of_singleton in Hc as ->.
    unfold lowercase, ord. simpl. lia.
  - intros c Hc. apply list_elem_of_In in Hc. simpl in Hc. naive_solver.
Defined.

Lemma add_hints_applied (self self' : wordle) (guess hint_str : list N) :
  length guess ≤ length (exact_matches self) →
  add_hints (Some guess) hint_str self = (Ok (), self') →
  Forall (λ p : N * N, p.2 ∈ lit "byg") (zip guess hint_str)
  ∧ disallowed_letters self' = disallowed_letters self
      ∪ list_to_set ((filter (λ p : N * N, p.2 = ord "b") (zip guess hint_str)).*1)
  ∧ included_letters self' = included_letters self
      ∪ list_to_set ((filter (λ p : N * N, p.2 = ord "y") (zip guess hint_str)).*1)
  ∧ bad_guesses self' = bad_guesses self
  ∧ mode self' = mode self
  ∧ ∀ pos, exact_matches self' !! pos =
      match zip guess hint_str !! pos with
      | Some (letter, h) =>
        if bool_decide (h = ord "g") then Some (Some letter)
        else exact_matches self !! pos
      | None => exact_matches self !! pos
      end.
Proof.
  intros Hlen Hrun.
  assert (length (zip guess hint_str) ≤ length (exact_matches self)) as Hz.
  { rewrite length_zip_with. lia. }
  pose proof (add_hints_frame (Some guess) hint_str self) as (Hmode & _ & Hbad & _).
  rewrite Hrun in Hmode, Hbad. simpl in Hmode, Hbad.
  unfold add_hints in Hrun.
  destruct (decide (Forall (λ p : N * N, p.2 ∈ lit "byg") (zip guess hint_str)))
    as [Hall|Hall].
  - destruct (add_hints_loop self _ Hz Hall) as (self1 & Hrun1 & Hd & Hi & _ & He).
    rewrite Hrun1 in Hrun. injection Hrun as <-. done.
  - pose proof (add_hints_loop_invalid self 0 _ Hz Hall) as H.
    unfold enumerate in Hrun. by rewrite Hrun in H.
Qed.

Lemma elem_of_hinted_pairs (h c : N) (pairs : list (N * N)) :
  c ∈ (list_to_set ((filter (λ p : N * N, p.2 = h) pairs).*1) : gset N)
  ↔ ∃ pos, pairs !! pos = Some (c, h).
Proof.
  rewrite elem_of_list_to_set, list_elem_of_fmap. split.
  - intros ([c' h'] & -> & [Hh Hin]%list_elem_of_filter). simpl in *. subst h'.
    by apply list_elem_of_lookup.
  - intros [pos Hpos]. exists (c, h). split; [done|].
    apply list_elem_of_filter. split; [done|]. by eapply list_elem_of_lookup_2.
Qed.

(** X13.  In EXPLORE mode, after the hints for a guess, one hint for
    each letter, no word that is shortlisted has a letter of that guess. *)
Theorem explore_guess_has_new_letters (self self' : wordle)
    (guess hint_str word : list N) :
  mode self = EXPLORE → well_formed self →
  valid_word guess = true → valid_word word = true →
  length guess ≤ length hint_str →
  add_hints (Some guess) hint_str self = (Ok (), self') →
  shortlisted self' word = true →
  ∀ c, c ∈ word → c ∉ guess.
Proof.
  intros Hmode Hwf Hguess Hword Hlen Hrun Hshort c Hc Hin.
  destruct Hwf as (Hslots & _). apply valid_word_letters in Hguess as [Hg5 _].
  destruct (add_hints_applied self self' guess hint_str) as
    (Hall & Hd & Hi & _ & Hmode' & He); [lia|done|].
  unfold shortlisted, eligible, regexp in Hshort. rewrite Hmode', Hmode in Hshort.
  rewrite andb_true_r in Hshort. apply andb_true_iff in Hshort as [_ Hmatch].
  pose proof (proj1 (regexp_explore_match self' word Hword) Hmatch c Hc)
    as (Hnd & Hni & Hne).
  apply list_elem_of_lookup in Hin as [pos Hpos].
  destruct (lookup_lt_is_Some_2 hint_str pos) as [h Hh].
  { apply lookup_lt_Some in Hpos. lia. }
  assert (zip guess hint_str !! pos = Some (c, h)) as Hpair.
  { apply lookup_zip_with_Some. eauto. }
  rewrite Forall_forall in Hall.
  pose proof (Hall (c, h) (list_elem_of_lookup_2 _ _ _ Hpair)) as Hsym.
  simpl in Hsym. apply hint_symbol in Hsym as [-> | [-> | ->]].
  - apply Hnd. rewrite Hd. apply elem_of_union_r, elem_of_hinted_pairs. eauto.
  - apply Hni. rewrite Hi. apply elem_of_union_r, elem_of_hinted_pairs. eauto.
  - apply Hne. apply list_elem_of_lookup. exists pos. by rewrite He, Hpair.
Qed.

Lemma explore_guess_has_new_letters_witness :
  Forall (λ c, c ∉ lit "apple") (lit "moist").
Proof.
  apply Forall_forall.
  apply (explore_guess_has_new_letters (init larger_corpus)
           (add_hints (Some (lit "apple")) (lit "bbbby") (init larger_corpus)).2
           (lit "apple") (lit "bbbby") (lit "moist")); try reflexivity.
  apply init_well_formed. repeat constructor.
Defined.

Lemma spec_hint_cases (word : list N) (letter : N) (index : nat) :
  (spec_hint word letter index = ord "g" ∧ word !! index = Some letter)
  ∨ (spec_hint word letter index = ord "y" ∧ letter ∈ word)
  ∨ (spec_hint word letter index = ord "b" ∧ letter ∉ word).
Proof.
  unfold spec_hint. case_bool_decide; [by left|].
  case_bool_decide; [right; by left|right; by right].
Qed.

(** X14.  The hints that [get_hint_str] gives for a hidden word never
    turn the solver against that word: if the word meets the constraints
    of the solver (those of eligibility in GUESS mode), then [add_hints]
    takes the hints for any guess of its length, and the word meets the
    constraints afterwards. *)
Theorem true_feedback_keeps_the_answer (self : wordle)
    (answer guess code : list N) :
  spec_eligible_guess self answer →
  length guess = length answer → length guess ≤ length (exact_matches self) →
  get_hint_str answer guess = Ok code →
  ∃ self', add_hints (Some guess) code self = (Ok (), self')
    ∧ spec_eligible_guess self' answer.
Proof.
  intros (Hexact & Hdis & Hinc & Hbad) Hlen Hslots Hcode.
  unfold get_hint_str, enumerate in Hcode.
  rewrite hints_from in Hcode by (simpl; lia). injection Hcode as <-.
  set (code := imap (λ i letter, spec_hint answer letter (0 + i)) guess).
  assert (∀ pos letter h, zip guess code !! pos = Some (letter, h) →
            h = spec_hint answer letter pos) as Hpairs.
  { intros pos letter h (l & h' & [= <- <-] & Hl & Hh)%lookup_zip_with_Some.
    unfold code in Hh. rewrite list_lookup_imap, Hl in Hh. by injection Hh as <-. }
  assert (Forall (λ p : N * N, p.2 ∈ lit "byg") (zip guess code)) as Hall.
  { apply Forall_forall. intros [letter h] [pos Hpos]%list_elem_of_lookup.
    rewrite (Hpairs _ _ _ Hpos). simpl. apply hint_symbol.
    destruct (spec_hint_cases answer letter pos) as [[-> _]|[[-> _]|[-> _]]]; tauto. }
  assert (length (zip guess code) ≤ length (exact_matches self)) as Hz.
  { rewrite length_zip_with. lia. }
  destruct (add_hints_loop self _ Hz Hall) as (self' & Hrun & Hd & Hi & _ & He).
  assert (add_hints (Some guess) code self = (Ok (), self')) as Hadd by done.
  pose proof (add_hints_frame (Some guess) code self) as Hframe.
  rewrite Hadd in Hframe. simpl in Hframe. destruct Hframe as (_ & _ & Hb & _).
  exists self'. split; [done|].
  assert (∀ c, c ∈ (list_to_set ((filter (λ p : N * N, p.2 = ord "b")
                                         (zip guess code)).*1) : gset N) →
               c ∉ answer) as Hnew.
  { intros c [pos Hpos]%elem_of_hinted_pairs. apply Hpairs in Hpos.
    destruct (spec_hint_cases answer c pos) as [[Hs _]|[[Hs _]|[_ ?]]];
      [rewrite Hs in Hpos; discriminate..|done]. }
  split; [|split; [|split]].
  - intros i c. rewrite He.
    destruct (zip guess code !! i) as [[letter h]|] eqn:Hpos; [|apply Hexact].
    case_bool_decide as Hg; [|apply Hexact]. intros [= <-]. subst h.
    apply Hpairs in Hpos.
    destruct (spec_hint_cases answer letter i) as [[_ ?]|[[Hs _]|[Hs _]]];
      [done|rewrite Hs in Hpos; discriminate..].
  - intros i c. rewrite He, Hd.
    intros Hnone Hc. apply not_elem_of_union. split.
    + apply (Hdis i c); [|done].
      destruct (zip guess code !! i) as [[letter h]|]; [|done].
      by case_bool_decide.
    + intros Hin%Hnew. apply Hin. by eapply list_elem_of_lookup_2.
  - intros c. rewrite Hi. intros [?|[pos Hpos]%elem_of_hinted_pairs]%elem_of_union;
      [by apply Hinc|].
    apply Hpairs in Hpos.
    destruct (spec_hint_cases answer c pos) as [[Hs _]|[[_ ?]|[Hs _]]];
      [rewrite Hs in Hpos; discriminate|done|rewrite Hs in Hpos; discriminate].
  - by rewrite Hb.
Qed.

Lemma true_feedback_keeps_the_answer_witness :
  ∃ self',
    add_hints (Some (lit "angle")) (lit "gbbgg") (init scenario_corpus) = (Ok (), self')
    ∧ spec_eligible_guess self' (lit "apple").
Proof.
  apply (true_feedback_keeps_the_answer (init scenario_corpus) (lit "apple")
           (lit "angle") (lit "gbbgg")); [|reflexivity|simpl; lia|reflexivity].
  split; [|split; [|split]].
  - intros i c Hi. apply list_elem_of_lookup_2 in Hi.
    apply list_elem_of_In in Hi. simpl in Hi. naive_solver.
  - intros i c _ _. set_solver.
  - intros c Hc. set_solver.
  - set_solver.
Defined.

End SolverFacts.

(** ** [wordle.py]: letter scores for any multiplier *)

Section WeightFacts.
Import Wordle Explore.

Lemma Qsum_cons (q : Qc) (l : list Qc) : Qsum (q :: l) = (q + Qsum l)%Qc.
Proof. done. Qed.

Lemma vowels_upto_cons (n : nat) (c : N) (word : list N) :
  vowels_upto (S n) (c :: word)
  = (if is_vowel c then 1 else 0) + vowels_upto n word.
Proof.
  unfold vowels_upto. cbn [take]. rewrite filter_cons.
  destruct (is_vowel c); case_decide; done.
Qed.

Lemma weighted_occurrences_cons (vm : Qc) (m : MODE) (letter c : N)
    (word : list N) (freq : Qc) :
  let freq' :=
    if bool_decide (m = EXPLORE) && is_vowel c then (freq * vm)%Qc else freq in
  weighted_occurrences vm m letter (c :: word) freq
  = ((if decide (c = letter) then freq' else 0)
     + weighted_occurrences vm m letter word freq')%Qc.
Proof.
  intros freq'. unfold weighted_occurrences. cbn [imap]. rewrite Qsum_cons.
  f_equal.
  - case_bool_decide as Hc; [rewrite decide_True by done|by rewrite decide_False].
    unfold freq', occurrence_weight. destruct m; simpl; [|done].
    rewrite vowels_upto_cons. unfold vowels_upto. simpl.
    destruct (is_vowel c); simpl; ring.
  - f_equal. apply imap_ext. intros pos x _. simpl. case_bool_decide; [|done].
    unfold freq', occurrence_weight. destruct m; simpl; [|done].
    rewrite vowels_upto_cons. destruct (is_vowel c); simpl; ring.
Qed.

Lemma add_letter_scores_weighted (vm : Qc) (m : MODE) (word : list N) (freq : Qc)
    (scores : gmap N Qc) (letter : N) :
  letter_score (add_letter_scores vm m word freq scores) letter
  = (letter_score scores letter + weighted_occurrences vm m letter word freq)%Qc.
Proof.
  unfold add_letter_scores. revert freq scores.
  induction word as [|c word IH]; intros freq scores.
  { cbn [foldl snd]. unfold weighted_occurrences. simpl. ring. }
  cbn [foldl]. rewrite IH, letter_score_insert, weighted_occurrences_cons.
  destruct (decide (c = letter)); [subst|]; ring.
Qed.

Lemma weighted_occurrences_guess (vm : Qc) (letter : N) (word : list N) (freq : Qc) :
  weighted_occurrences vm GUESS letter word freq
  = (Qc_of_Z (Z.of_nat (occurrences letter word)) * freq)%Qc.
Proof.
  induction word as [|c word IH].
  { change (Qc_of_Z (Z.of_nat (occurrences letter []))) with (Qc_of_Z 0).
    rewrite Z2Qc_inj_0. unfold weighted_occurrences. simpl. ring. }
  rewrite weighted_occurrences_cons.
  rewrite (bool_decide_false (GUESS = EXPLORE)) by done. cbn [andb].
  rewrite IH, occurrences_cons, Nat2Z.inj_add, Z2Qc_inj_add.
  destruct (decide (c = letter));
    [change (Z.of_nat 1) with 1%Z; rewrite Z2Qc_inj_1
    |change (Z.of_nat 0) with 0%Z; rewrite Z2Qc_inj_0]; ring.
Qed.

Lemma letter_scores_weighted (vm : Qc) (regexp : list atom)
    (self : wordle) (letter : N) :
  letter_score (letter_scores (compute_letter_scores vm regexp self)) letter
  = Qsum ((λ p : list N * Qc, weighted_occurrences vm (mode self) letter p.1 p.2)
          <$> filter (λ p : list N * Qc, re_match regexp p.1) (wordfreqs self)).
Proof.
  unfold compute_letter_scores. simpl.
  assert (∀ l scores,
    letter_score
      (foldl (λ scores '(word, freq),
                if re_match regexp word
                then add_letter_scores vm (mode self) word freq scores
                else scores) scores l) letter
    = (letter_score scores letter
       + Qsum ((λ p : list N * Qc,
                  weighted_occurrences vm (mode self) letter p.1 p.2)
               <$> filter (λ p : list N * Qc, re_match regexp p.1) l))%Qc) as H.
  { induction l as [|[word freq] l IH]; intros scores.
    { simpl. ring. }
    cbn [foldl]. rewrite IH, filter_cons. cbn [fst].
    destruct (re_match regexp word) eqn:Hm.
    - rewrite decide_True by done. rewrite add_letter_scores_weighted.
      rewrite fmap_cons, Qsum_cons. cbn [fst snd]. ring.
    - rewrite decide_False; [done|]. simpl. tauto. }
  rewrite H. unfold letter_score. rewrite lookup_empty. simpl. ring.
Qed.

(** X15.  What [compute_letter_scores] gives a letter, for any
    multiplier: over the corpus words the pattern matches, the sum over
    the occurrences of the letter of the frequency of the word, which in
    EXPLORE mode is multiplied once for each vowel of the word up to and
    including the occurrence.  In GUESS mode the multiplier has no
    effect. *)
Theorem letter_scores_weigh_occurrences (vm : Qc) (regexp : list atom)
    (self : wordle) (letter : N) :
  letter_score (letter_scores (compute_letter_scores vm regexp self)) letter
  = Qsum ((λ p : list N * Qc, weighted_occurrences vm (mode self) letter p.1 p.2)
          <$> filter (λ p : list N * Qc, re_match regexp p.1) (wordfreqs self))
  ∧ (mode self = GUESS →
     letter_score (letter_scores (compute_letter_scores vm regexp self)) letter
     = occurrence_total regexp self letter).
Proof.
  split; [apply letter_scores_weighted|].
  intros Hmode. rewrite letter_scores_weighted, Hmode. unfold occurrence_total.
  f_equal. apply list_fmap_ext. intros i p _. apply weighted_occurrences_guess.
Qed.

End WeightFacts.

(** ** [wordle.py]: what [guess()] returns, and how [play] ends *)

Section PlayFacts.
Import Wordle Explore.

(** X16.  [guess()] does not raise.  The word it returns is a word of the
    corpus that is shortlisted and has a score above [0], the first in
    the order of the corpus among the shortlisted words with the highest
    score; it returns [None] exactly when no shortlisted word has a score
    above [0].  The scores are those of the letter scores that [guess()]
    has just computed. *)
Theorem guess_is_first_best (vm : Qc) (self : wordle) :
  ∃ g,
    guess vm self = (Ok g, compute_letter_scores vm (regexp self) self)
    ∧ match g with
      | Some w =>
        shortlisted self w = true
        ∧ (0 < score_of (compute_letter_scores vm (regexp self) self) w)%Qc
        ∧ ∃ l1 l2,
            (wordfreqs self).*1 = l1 ++ w :: l2
            ∧ (∀ w', w' ∈ l1 → shortlisted self w' = true →
                 (score_of (compute_letter_scores vm (regexp self) self) w'
                  < score_of (compute_letter_scores vm (regexp self) self) w)%Qc)
            ∧ (∀ w', w' ∈ l2 → shortlisted self w' = true →
                 (score_of (compute_letter_scores vm (regexp self) self) w'
                  ≤ score_of (compute_letter_scores vm (regexp self) self) w)%Qc)
      | None =>
        ∀ w', w' ∈ (wordfreqs self).*1 → shortlisted self w' = true →
              (score_of (compute_letter_scores vm (regexp self) self) w' ≤ 0)%Qc
      end.
Proof.
  destruct (guess_returns_best vm self) as ([g sc] & Hguess & Hbest).
  pose proof (guess_same_knowledge vm self) as Hsame. rewrite guess_solver in Hsame.
  pose proof (λ w, shortlisted_same_knowledge self _ w Hsame) as Hshort.
  exists g. split; [done|]. unfold best_so_far in Hbest. simpl in Hbest.
  destruct g as [w|].
  - destruct Hbest as (_ & Hpos & Hw & l1 & l2 & Hl & H1 & H2).
    rewrite Hshort in Hw. split; [done|]. split; [done|].
    exists l1, l2. split; [done|].
    split; intros w' Hin Hw'; [apply H1|apply H2]; by rewrite ?Hshort.
  - destruct Hbest as [_ Hnone]. intros w' Hin Hw'. apply Hnone; [done|].
    by rewrite Hshort.
Qed.


Lemma score_of_guess_mode (self self' : wordle) (word : list N) :
  same_knowledge self self' → mode self = GUESS →
  score_of self' word = score_of self word.
Proof.
  intros (Hmode & _ & _ & _ & _ & _ & Hfreqs) Hguess.
  unfold score_of, word_score, word_score_guess. by rewrite Hmode, Hguess, Hfreqs.
Qed.

Lemma guess_none_guess_mode (vm : Qc) (self : wordle) :
  mode self = GUESS →
  (∀ w, w ∈ (wordfreqs self).*1 → shortlisted self w = true →
        (score_of self w ≤ 0)%Qc) →
  guess vm self = (Ok None, compute_letter_scores vm (regexp self) self).
Proof.
  intros Hmode Hnone. destruct (guess_returns_best vm self) as ([best sc] & -> & Hbest).
  pose proof (guess_same_knowledge vm self) as Hsame. rewrite guess_solver in Hsame.
  unfold best_so_far in Hbest. simpl in *. destruct best as [w|]; [|done].
  destruct Hbest as (_ & Hpos & Hshort & l1 & l2 & Hl & _).
  rewrite (score_of_guess_mode self) in Hpos by done.
  rewrite (shortlisted_same_knowledge self) in Hshort by done.
  assert (w ∈ (wordfreqs self).*1) as Hw by (rewrite Hl; set_solver).
  specialize (Hnone w Hw Hshort). by apply Qcle_not_lt in Hnone.
Qed.

(** X17.  In GUESS mode, when no shortlisted word of the corpus has a
    score above [0], [guess()] has no word, and the pass of [play] ends
    with [TypeError] on whatever line is typed next, unless the line is
    [bad]; the line is used up. *)
Theorem no_candidate_ends_play (rounds : nat) (vm : Qc) (self : wordle)
    (line : list N) (rest : list (list N)) :
  mode self = GUESS →
  (∀ w, w ∈ (wordfreqs self).*1 → shortlisted self w = true →
        (score_of self w ≤ 0)%Qc) →
  strip line ≠ lit "bad" →
  (guess vm self).1 = Ok None
  ∧ ∃ self', play_body rounds vm (Run self (line :: rest))
             = (Raise TypeError, Run self' rest)
      ∧ same_knowledge self self'.
Proof.
  intros Hmode Hnone Hbad.
  pose proof (guess_none_guess_mode vm self Hmode Hnone) as Hguess.
  pose proof (guess_same_knowledge vm self) as Hsame.
  rewrite Hguess in *. split; [done|]. simpl in Hsame.
  exists (compute_letter_scores vm (regexp self) self). split; [|done].
  unfold play_body. simpl. rewrite Hguess.
  destruct Hsame as [-> _]. rewrite Hmode. simpl.
  by rewrite bool_decide_false.
Qed.

Lemma no_candidate_ends_play_witness :
  (guess 1 (set_mode GUESS (init rare_corpus))).1 = Ok None
  ∧ ∃ self', play_body 2 1 (Run (set_mode GUESS (init rare_corpus))
                                 [lit "ggggg"; lit "bad"])
             = (Raise TypeError, Run self' [lit "bad"])
      ∧ same_knowledge (set_mode GUESS (init rare_corpus)) self'.
Proof.
  apply (no_candidate_ends_play 2 1 (set_mode GUESS (init rare_corpus))
           (lit "ggggg") [lit "bad"]).
  - reflexivity.
  - intros w Hw _. apply list_elem_of_In in Hw. simpl in Hw.
    destruct Hw as [<-|[]]. by vm_compute.
  - by vm_compute.
Defined.

Lemma add_hints_raises (guess : option (list N)) (hint_str : list N)
    (self : wordle) (e : exn) :
  (∀ g, guess = Some g → length g ≤ length (exact_matches self)) →
  (add_hints guess hint_str self).1 = Raise e → e = TypeError ∨ e = ValueError.
Proof.
  intros Hlen. destruct guess as [g|]; [|intros [= <-]; by left].
  specialize (Hlen g eq_refl). unfold add_hints.
  assert (length (zip g hint_str) ≤ length (exact_matches self)) as Hz.
  { rewrite length_zip_with. lia. }
  destruct (decide (Forall (λ p : N * N, p.2 ∈ lit "byg") (zip g hint_str)))
    as [Hall|Hall].
  - destruct (add_hints_loop self _ Hz Hall) as (self' & -> & _). done.
  - pose proof (add_hints_loop_invalid self 0 _ Hz Hall) as H.
    unfold enumerate. rewrite H. intros [= <-]. by right.
Qed.

(** A pass that raises. *)
Lemma play_body_raises (rounds : nat) (vm : Qc) (r : run) (e : exn) :
  well_formed (solver r) → (play_body rounds vm r).1 = Raise e → play_exn e.
Proof.
  intros Hwf. unfold play_body.
  destruct (guess_returns_best vm (solver r)) as (best & Hguess & _).
  pose proof (guess_returns_shortlisted vm (solver r)) as Hshort.
  pose proof (guess_same_knowledge vm (solver r)) as Hsame.
  rewrite Hguess in *. simpl in *.
  destruct (_ && _); [done|].
  destruct (stdin r) as [|line rest]; [intros [= <-]; by left|].
  case_bool_decide; [done|].
  pose proof (add_hints_raises best.1 (strip line)
                (compute_letter_scores vm (regexp (solver r)) (solver r)) e) as Hadd.
  destruct (add_hints _ _ _) as [[u|e'] self']; [done|]. simpl in *.
  intros [= ->]. right. apply Hadd; [|done].
  intros g Hg. destruct (Hshort g) as [_ Hin]; [by rewrite Hg|].
  destruct Hwf as (Hlen & _ & _ & _ & Hcorpus).
  clear Hsame. simpl. rewrite Hlen.
  apply list_elem_of_fmap in Hin as (p & -> & Hp).
  rewrite Forall_forall in Hcorpus. apply Hcorpus in Hp.
  apply valid_word_letters in Hp as [-> _]. done.
Qed.

Lemma play_body_uses_up (rounds : nat) (vm : Qc) (r : run) (ev : event) :
  (play_body rounds vm r).1 = Ok ev →
  passes_left (play_body rounds vm r).2 < passes_left r.
Proof.
  pose proof (play_body_pass rounds vm r) as (_ & Hmode & _).
  revert Hmode. unfold play_body, passes_left.
  pose proof (guess_same_knowledge vm (solver r)) as [Hsame _].
  destruct (guess vm (solver r)) as [[g|e] self]; [|done]. simpl in Hsame.
  destruct (bool_decide (g = None) && bool_decide (mode self = EXPLORE)) eqn:Hsw.
  - simpl. intros _ _. apply andb_true_iff in Hsw as [_ Hsw].
    apply bool_decide_eq_true in Hsw. rewrite Hsw in Hsame. rewrite <-Hsame. lia.
  - destruct (stdin r) as [|line rest]; [done|].
    destruct (bool_decide (strip line = lit "bad")).
    + simpl. intros _ _. rewrite Hsame. lia.
    + destruct (add_hints g (strip line) self) as [[u|e] self']; [|done].
      simpl. intros Hmode _.
      set (m' := mode (decide_mode rounds _)) in *.
      destruct (mode (solver r)); destruct m'; try lia.
      by specialize (Hmode eq_refl).
Qed.

Lemma play_runs_out (rounds : nat) (vm : Qc) (n : nat) (r : run) :
  well_formed (solver r) → passes_left r < n →
  ∃ e, (play rounds vm n r).1.2 = Some e ∧ play_exn e.
Proof.
  revert r. induction n as [|n IH]; intros r Hwf Hn; [lia|].
  rewrite play_S.
  pose proof (play_body_raises rounds vm r) as Hraise.
  pose proof (play_body_uses_up rounds vm r) as Huse.
  pose proof (play_body_well_formed rounds vm r Hwf) as Hwf'.
  destruct (play_body rounds vm r) as [[ev|e] r']; simpl in *.
  - specialize (Huse ev eq_refl). apply IH; [done|lia].
  - exists e. split; [done|]. by apply Hraise.
Qed.

(** X18.  [play] does not return: on a well-formed solver, and with
    input that ends, the loop has ended by an exception after at most two
    passes more than there are lines, and the exception is [EOFError]
    (the input ended), [ValueError] (a hint that is not [b], [y] or [g])
    or [TypeError] (there was no word to guess). *)
Theorem play_ends_by_exception (rounds : nat) (vm : Qc) (n : nat) (r : run) :
  well_formed (solver r) → length (stdin r) + 2 ≤ n →
  ∃ e, (play rounds vm n r).1.2 = Some e ∧ play_exn e.
Proof.
  intros Hwf Hn. apply play_runs_out; [done|]. unfold passes_left.
  destruct (mode (solver r)); lia.
Qed.

Lemma play_ends_by_exception_witness :
  ∃ e, (play NUMBER_OF_EXPLORE_ROUNDS VOWEL_MULTIPLIER 3
          (Run (init scenario_corpus) [lit "bbbbb"])).1.2 = Some e
       ∧ play_exn e.
Proof.
  apply (play_ends_by_exception NUMBER_OF_EXPLORE_ROUNDS VOWEL_MULTIPLIER 3
           (Run (init scenario_corpus) [lit "bbbbb"])).
  - apply init_well_formed. repeat constructor.
  - simpl. lia.
Defined.

End PlayFacts.

(** ** [wordle.py]: reading the corpus *)

Section CorpusFacts.
Import Wordle Corpus.

Variable str_lower : list N → list N.
Variable int : list N → result Z.
Variable log : Z → result Qc.

Lemma split_from_fields (field s : list N) :
  Forall (λ c, is_space c = false) field →
  Forall (λ w, Forall (λ c, is_space c = false) w) (split_from field s).
Proof.
  revert field. induction s as [|c s IH]; intros field Hfield; simpl.
  - case_bool_decide; [constructor|]. repeat constructor. by apply Forall_reverse.
  - destruct (is_space c) eqn:Hc.
    + case_bool_decide; [by apply IH|]. constructor; [by apply Forall_reverse|].
      by apply IH.
    + apply IH. by constructor.
Qed.

Lemma split_spaces (s : list N) :
  Forall (λ c, is_space c = true) s → split s = [].
Proof.
  unfold split. induction 1 as [|c s Hc _ IH]; [done|]. simpl. by rewrite Hc.
Qed.

Lemma dict_set_keys {V} (d : list (list N * V)) (k : list N) (v : V) :
  (dict_set d k v).*1 = if decide (k ∈ d.*1) then d.*1 else d.*1 ++ [k].
Proof.
  induction d as [|[k' v'] d IH].
  - destruct (decide _) as [Hin|_]; [|done]. by apply elem_of_nil in Hin.
  - cbn [dict_set]. case_bool_decide as Hk.
    + subst k'. rewrite decide_True; [done|]. rewrite fmap_cons. left.
    + rewrite !fmap_cons, IH. cbn [fst].
      destruct (decide (k ∈ d.*1)) as [Hin|Hin].
      * rewrite decide_True; [done|by right].
      * rewrite decide_False; [done|]. by intros [?|?]%elem_of_cons.
Qed.

Lemma dict_set_Forall {V} (P : list N * V → Prop) (d : list (list N * V))
    (k : list N) (v : V) :
  Forall P d → P (k, v) → Forall P (dict_set d k v).
Proof.
  intros Hd Hkv. induction Hd as [|[k' v'] d Hp Hd IH]; simpl.
  - by repeat constructor.
  - case_bool_decide as Hk; [subst k'|]; by constructor.
Qed.

Lemma valid_words_valid (lines : list (list N)) (word : list N) :
  word ∈ valid_words str_lower lines → 10%N ∉ word → valid_word word = true.
Proof.
  unfold valid_words. rewrite elem_of_list_to_set, list_elem_of_filter.
  intros [Hm _] Hnl. apply Is_true_true in Hm.
  assert (∀ n w, 10%N ∉ w → re_match (replicate n LowerCase) w = true →
                 length w = n ∧ forallb (λ c, ((97 <=? c) && (c <=? 122))%N) w = true)
    as Hrep.
  { clear. induction n as [|n IH]; intros [|c w] Hnl; simpl; try done.
    - destruct w; [|done]. rewrite bool_decide_eq_true. intros ->.
      destruct Hnl. left.
    - rewrite andb_true_iff. intros [Hc Hw].
      destruct (IH w) as [<- Hall]; [intros ?; apply Hnl; by right|done|].
      by rewrite Hc, Hall. }
  destruct (Hrep 5 word Hnl Hm) as [Hlen Hall].
  unfold valid_word. rewrite Hall, bool_decide_true; done.
Qed.

Lemma add_wordfreq_read_from (valid_lines freq_lines : list (list N))
    (line : list N) (wordfreqs : list (list N * Qc)) :
  line ∈ freq_lines → read_from str_lower int log valid_lines freq_lines wordfreqs →
  read_from str_lower int log valid_lines freq_lines
    (add_wordfreq int log (valid_words str_lower valid_lines) line wordfreqs).2.
Proof.
  intros Hline [Hnodup Hall]. unfold add_wordfreq.
  case_bool_decide as Hempty; [done|].
  pose proof (split_from_fields [] line (Forall_nil_2 _)) as Hfields.
  fold (split line) in Hfields.
  destruct (split line) as [|word [|freq [|]]] eqn:Hsplit; try done.
  destruct (int freq) as [n|] eqn:Hn; [|done].
  case_bool_decide as Hvalid; [done|].
  destruct (log n) as [logfreq|] eqn:Hlog; [|done]. simpl.
  split.
  - rewrite dict_set_keys. case_decide; [done|].
    apply NoDup_app. split; [done|]. split; [|apply NoDup_singleton].
    intros w Hw ->%list_elem_of_singleton. done.
  - apply dict_set_Forall; [done|]. simpl. split; [done|]. split.
    + eapply valid_words_valid; [done|]. apply Forall_inv in Hfields.
      intros Hnl. rewrite Forall_forall in Hfields. by apply Hfields in Hnl.
    + exists line, freq, n. done.
Qed.

(** X19.  What [get_wordfreqs] returns: a dictionary that has no word
    twice, whose words are words of the word file (five letters [a] to
    [z]), and whose every entry was read from a line of two fields of the
    frequency file.  The solver that starts from it is well-formed, and
    stays so through every pass of [play]. *)
Theorem get_wordfreqs_corpus (valid_lines freq_lines : list (list N))
    (corpus : list (list N * Qc)) :
  get_wordfreqs str_lower int log valid_lines freq_lines = Ok corpus →
  NoDup corpus.*1
  ∧ (∀ word logfreq, (word, logfreq) ∈ corpus →
       word ∈ valid_words str_lower valid_lines
       ∧ valid_word word = true
       ∧ ∃ line freq n, line ∈ freq_lines ∧ split line = [word; freq]
                        ∧ int freq = Ok n ∧ log n = Ok logfreq)
  ∧ ∀ rounds vm n lines,
      well_formed (solver (play rounds vm n (Run (init corpus) lines)).2).
Proof.
  unfold get_wordfreqs. intros Hrun.
  assert (read_from str_lower int log valid_lines freq_lines corpus) as [Hnodup Hall].
  { pose proof (for_each_invariant (read_from str_lower int log valid_lines freq_lines)
                  (add_wordfreq int log (valid_words str_lower valid_lines))
                  freq_lines []) as Hinv.
    destruct (for_each _ _ _) as [[u|e] wordfreqs]; [|done].
    injection Hrun as <-. apply Hinv.
    - split; constructor.
    - intros line wordfreqs' Hline. by apply add_wordfreq_read_from. }
  split; [done|]. split.
  - intros word logfreq Hin. rewrite Forall_forall in Hall.
    apply (Hall _ Hin).
  - intros rounds vm n lines. apply play_well_formed. apply init_well_formed.
    eapply Forall_impl; [exact Hall|]. intros p Hp. apply Hp.
Qed.

Lemma for_each_raises {A S} (body : A → S → result unit * S) (l : list A)
    (a : A) (s : S) :
  a ∈ l → (∀ s, ∃ e, (body a s).1 = Raise e) →
  ∃ e, (for_each body l s).1 = Raise e.
Proof.
  intros Hin Hbody. revert s. induction l as [|b l IH]; intros s.
  { by apply elem_of_nil in Hin. }
  simpl. apply elem_of_cons in Hin as [<-|Hin].
  - destruct (Hbody s) as [e He]. destruct (body a s) as [[u|e'] s']; [done|].
    simpl in *. eauto.
  - destruct (body b s) as [[u|e'] s']; [by apply IH|]. simpl. eauto.
Qed.

(** X20.  [if not line] lets no line of a file through: a line of
    whitespace only, the newline of an empty line for one, is split into
    no field, and [get_wordfreqs] raises. *)
Theorem blank_line_raises (valid_lines freq_lines : list (list N))
    (line : list N) :
  line ∈ freq_lines → line ≠ [] → Forall (λ c, is_space c = true) line →
  ∃ e, get_wordfreqs str_lower int log valid_lines freq_lines = Raise e.
Proof.
  intros Hin Hne Hblank. unfold get_wordfreqs.
  destruct (for_each_raises (add_wordfreq int log (valid_words str_lower valid_lines))
              freq_lines line [] Hin) as [e He].
  - intros wordfreqs. exists ValueError. unfold add_wordfreq.
    rewrite bool_decide_false by done. by rewrite split_spaces.
  - destruct (for_each _ _ _) as [[u|e'] wordfreqs]; [done|]. eauto.
Qed.

End CorpusFacts.

Section CorpusWitnesses.
Import Wordle Corpus.

Lemma get_wordfreqs_corpus_witness :
  NoDup [(lit "apple", Qc_of_Z 3)].*1
  ∧ (∀ word logfreq, (word, logfreq) ∈ [(lit "apple", Qc_of_Z 3)] →
       word ∈ valid_words lower [lit "Apple" ++ [10%N]; lit "pear" ++ [10%N]]
       ∧ valid_word word = true
       ∧ ∃ line freq n,
           line ∈ [lit "apple 12" ++ [10%N]; lit "zzzzz 7" ++ [10%N];
                   lit "apple 8" ++ [10%N]]
           ∧ split line = [word; freq]
           ∧ decimal freq = Ok n ∧ log2_floor n = Ok logfreq)
  ∧ ∀ rounds vm n lines,
      well_formed
        (solver (play rounds vm n (Run (init [(lit "apple", Qc_of_Z 3)]) lines)).2).
Proof.
  apply (get_wordfreqs_corpus lower decimal log2_floor
           [lit "Apple" ++ [10%N]; lit "pear" ++ [10%N]]
           [lit "apple 12" ++ [10%N]; lit "zzzzz 7" ++ [10%N];
            lit "apple 8" ++ [10%N]]).
  by vm_compute.
Defined.

Lemma blank_line_raises_witness :
  ∃ e, get_wordfreqs lower decimal log2_floor [lit "apple" ++ [10%N]]
         [lit "apple 12" ++ [10%N]; [10%N]] = Raise e.
Proof.
  apply (blank_line_raises lower decimal log2_floor [lit "apple" ++ [10%N]]
           [lit "apple 12" ++ [10%N]; [10%N]] [10%N]).
  - set_solver.
  - done.
  - by repeat constructor.
Defined.

End CorpusWitnesses.
